(** * Operator patching and trace forwarding of [nncf.dynamic_graph.patch_pytorch]

    A shallow embedding of [src/nncf/dynamic_graph/patch_pytorch.py]:
    the registry of original operators, the patch / unpatch life cycle, the
    shim around [torch.jit.script], and the [ForwardTraceOnly] policy.

    Python objects are references: a callable is identified by an [obj], and
    the function objects that [wrap_operator] and [wrap_module_call] create at
    run time live in a closure table, so that "the same object" is equality of
    references and never equality of contents. *)

From stdpp Require Import gmap strings list fin_maps.

Local Open Scope string_scope.
Local Open Scope list_scope.

(** ** Python objects and namespaces *)

(** The objects whose attributes the module reads and writes:
    [torch.nn.functional] (imported as [F]), [torch], the class
    [TracedTensor], the class [torch.nn.Module], and [torch.jit]. *)
Inductive namespace :=
  | F
  | torch
  | TracedTensor
  | torch_nn_Module
  | torch_jit.

#[global] Instance namespace_eq_dec : EqDecision namespace.
Proof. solve_decision. Defined.

Definition namespace_to_nat (ns : namespace) : nat :=
  match ns with
  | F => 0
  | torch => 1
  | TracedTensor => 2
  | torch_nn_Module => 3
  | torch_jit => 4
  end.

Definition namespace_of_nat (n : nat) : namespace :=
  match n with
  | 0 => F
  | 1 => torch
  | 2 => TracedTensor
  | 3 => torch_nn_Module
  | _ => torch_jit
  end.

#[global] Instance namespace_countable : Countable namespace.
Proof.
  apply (inj_countable' namespace_to_nat namespace_of_nat).
  by intros [].
Defined.

(** A reference to a callable.  [Builtin n] is an object that exists before
    this module runs (an operator of the framework); [Closure k] is the k-th
    function object created at run time by [wrap_operator] or
    [wrap_module_call]; [torch_jit_script_wrapper_fn] is the module-level
    function [torch_jit_script_wrapper] itself. *)
Inductive obj :=
  | Builtin (n : nat)
  | Closure (k : nat)
  | torch_jit_script_wrapper_fn.

#[global] Instance obj_eq_dec : EqDecision obj.
Proof. solve_decision. Defined.

(** [CustomTraceFunction] and its only subclass in this file. *)
Inductive CustomTraceFunction :=
  | ForwardTraceOnly.

#[global] Instance CustomTraceFunction_eq_dec : EqDecision CustomTraceFunction.
Proof. solve_decision. Defined.

(** [class PatchedOperatorInfo]: [name], [custom_trace_fn] (default [None]). *)
Record PatchedOperatorInfo := {
  poi_name : string;
  poi_custom_trace_fn : option CustomTraceFunction;
}.

#[global] Instance PatchedOperatorInfo_eq_dec : EqDecision PatchedOperatorInfo.
Proof. solve_decision. Defined.

(** [class OriginalOpInfo]: [name], [namespace], [op]. *)
Record OriginalOpInfo := {
  ooi_name : string;
  ooi_namespace : namespace;
  ooi_op : obj;
}.

#[global] Instance OriginalOpInfo_eq_dec : EqDecision OriginalOpInfo.
Proof. solve_decision. Defined.

(** The (namespace, name) slot a record restores. *)
Definition ooi_target (r : OriginalOpInfo) : namespace * string :=
  (ooi_namespace r, ooi_name r).

(** What a function object created at run time closes over. *)
Inductive closure :=
  | wrap_operator_closure (operator : obj) (operator_info : PatchedOperatorInfo)
  | wrap_module_call_closure (module_call : obj).

#[global] Instance closure_eq_dec : EqDecision closure.
Proof. solve_decision. Defined.

(** The callable a closure wraps. *)
Definition closure_original (c : closure) : obj :=
  match c with
  | wrap_operator_closure operator _ => operator
  | wrap_module_call_closure module_call => module_call
  end.

(** [PatchSpec] of [nncf.graph.operator_metatypes], as far as this file reads
    it: [underlying_function_names] and [custom_trace_fn]. *)
Record PatchSpec := {
  underlying_function_names : list string;
  custom_trace_fn : option CustomTraceFunction;
}.

(** An operator metatype, as far as this file reads it: its three optional
    patch specs. *)
Record OperatorMetatype := {
  torch_nn_functional_patch_spec : option PatchSpec;
  torch_module_patch_spec : option PatchSpec;
  torch_tensor_patch_spec : option PatchSpec;
}.

(** The container module classes handed to [ignore_scope]. *)
Inductive module_class :=
  | DataParallel
  | DistributedDataParallel.

#[global] Instance module_class_eq_dec : EqDecision module_class.
Proof. solve_decision. Defined.

(** ** Exceptions and outcomes *)

Inductive exn :=
  | AttributeError (msg : string)
  | TypeError (msg : string)
  | RuntimeError (msg : string)
  | IndexError.

#[global] Instance exn_eq_dec : EqDecision exn.
Proof. solve_decision. Defined.

Inductive outcome (A : Type) :=
  | Return (a : A)
  | Raise (e : exn).

Arguments Return {A} a.
Arguments Raise {A} e.

(** ** The process-wide state *)

(** One access to a namespace attribute. *)
Inductive ns_access :=
  | Hasattr (ns : namespace) (name : string)
  | Getattr (ns : namespace) (name : string)
  | Setattr (ns : namespace) (name : string) (v : obj).

(** The module globals ([ORIGINAL_OPERATORS], [_JIT_ALREADY_WRAPPED],
    [_OPERATORS_ALREADY_WRAPPED], [_ORIG_JIT_SCRIPT]) together with what they
    refer to and act on: the attributes of the namespaces, the table of the
    function objects created so far, the warnings issued, the classes marked
    by [ignore_scope], and the trace of attribute accesses. *)
Record State := {
  attrs : gmap (namespace * string) obj;
  closures : list closure;
  ORIGINAL_OPERATORS : list OriginalOpInfo;
  _JIT_ALREADY_WRAPPED : bool;
  _OPERATORS_ALREADY_WRAPPED : bool;
  _ORIG_JIT_SCRIPT : option obj;
  warnings_issued : list string;
  ignored_scopes : list module_class;
  accesses : list ns_access;
}.

Definition with_attrs (m : gmap (namespace * string) obj) (s : State) : State :=
  {| attrs := m; closures := closures s;
     ORIGINAL_OPERATORS := ORIGINAL_OPERATORS s;
     _JIT_ALREADY_WRAPPED := _JIT_ALREADY_WRAPPED s;
     _OPERATORS_ALREADY_WRAPPED := _OPERATORS_ALREADY_WRAPPED s;
     _ORIG_JIT_SCRIPT := _ORIG_JIT_SCRIPT s;
     warnings_issued := warnings_issued s;
     ignored_scopes := ignored_scopes s;
     accesses := accesses s |}.

Definition with_closures (l : list closure) (s : State) : State :=
  {| attrs := attrs s; closures := l;
     ORIGINAL_OPERATORS := ORIGINAL_OPERATORS s;
     _JIT_ALREADY_WRAPPED := _JIT_ALREADY_WRAPPED s;
     _OPERATORS_ALREADY_WRAPPED := _OPERATORS_ALREADY_WRAPPED s;
     _ORIG_JIT_SCRIPT := _ORIG_JIT_SCRIPT s;
     warnings_issued := warnings_issued s;
     ignored_scopes := ignored_scopes s;
     accesses := accesses s |}.

Definition with_ORIGINAL_OPERATORS (l : list OriginalOpInfo) (s : State) : State :=
  {| attrs := attrs s; closures := closures s;
     ORIGINAL_OPERATORS := l;
     _JIT_ALREADY_WRAPPED := _JIT_ALREADY_WRAPPED s;
     _OPERATORS_ALREADY_WRAPPED := _OPERATORS_ALREADY_WRAPPED s;
     _ORIG_JIT_SCRIPT := _ORIG_JIT_SCRIPT s;
     warnings_issued := warnings_issued s;
     ignored_scopes := ignored_scopes s;
     accesses := accesses s |}.

Definition with_JIT_ALREADY_WRAPPED (b : bool) (s : State) : State :=
  {| attrs := attrs s; closures := closures s;
     ORIGINAL_OPERATORS := ORIGINAL_OPERATORS s;
     _JIT_ALREADY_WRAPPED := b;
     _OPERATORS_ALREADY_WRAPPED := _OPERATORS_ALREADY_WRAPPED s;
     _ORIG_JIT_SCRIPT := _ORIG_JIT_SCRIPT s;
     warnings_issued := warnings_issued s;
     ignored_scopes := ignored_scopes s;
     accesses := accesses s |}.

Definition with_OPERATORS_ALREADY_WRAPPED (b : bool) (s : State) : State :=
  {| attrs := attrs s; closures := closures s;
     ORIGINAL_OPERATORS := ORIGINAL_OPERATORS s;
     _JIT_ALREADY_WRAPPED := _JIT_ALREADY_WRAPPED s;
     _OPERATORS_ALREADY_WRAPPED := b;
     _ORIG_JIT_SCRIPT := _ORIG_JIT_SCRIPT s;
     warnings_issued := warnings_issued s;
     ignored_scopes := ignored_scopes s;
     accesses := accesses s |}.

Definition with_ORIG_JIT_SCRIPT (o : option obj) (s : State) : State :=
  {| attrs := attrs s; closures := closures s;
     ORIGINAL_OPERATORS := ORIGINAL_OPERATORS s;
     _JIT_ALREADY_WRAPPED := _JIT_ALREADY_WRAPPED s;
     _OPERATORS_ALREADY_WRAPPED := _OPERATORS_ALREADY_WRAPPED s;
     _ORIG_JIT_SCRIPT := o;
     warnings_issued := warnings_issued s;
     ignored_scopes := ignored_scopes s;
     accesses := accesses s |}.

Definition with_warnings_issued (l : list string) (s : State) : State :=
  {| attrs := attrs s; closures := closures s;
     ORIGINAL_OPERATORS := ORIGINAL_OPERATORS s;
     _JIT_ALREADY_WRAPPED := _JIT_ALREADY_WRAPPED s;
     _OPERATORS_ALREADY_WRAPPED := _OPERATORS_ALREADY_WRAPPED s;
     _ORIG_JIT_SCRIPT := _ORIG_JIT_SCRIPT s;
     warnings_issued := l;
     ignored_scopes := ignored_scopes s;
     accesses := accesses s |}.

Definition with_ignored_scopes (l : list module_class) (s : State) : State :=
  {| attrs := attrs s; closures := closures s;
     ORIGINAL_OPERATORS := ORIGINAL_OPERATORS s;
     _JIT_ALREADY_WRAPPED := _JIT_ALREADY_WRAPPED s;
     _OPERATORS_ALREADY_WRAPPED := _OPERATORS_ALREADY_WRAPPED s;
     _ORIG_JIT_SCRIPT := _ORIG_JIT_SCRIPT s;
     warnings_issued := warnings_issued s;
     ignored_scopes := l;
     accesses := accesses s |}.

Definition with_accesses (l : list ns_access) (s : State) : State :=
  {| attrs := attrs s; closures := closures s;
     ORIGINAL_OPERATORS := ORIGINAL_OPERATORS s;
     _JIT_ALREADY_WRAPPED := _JIT_ALREADY_WRAPPED s;
     _OPERATORS_ALREADY_WRAPPED := _OPERATORS_ALREADY_WRAPPED s;
     _ORIG_JIT_SCRIPT := _ORIG_JIT_SCRIPT s;
     warnings_issued := warnings_issued s;
     ignored_scopes := ignored_scopes s;
     accesses := l |}.

(** ** Statements: state passing with exceptions *)

(** A statement runs on a state and either returns or raises; the state it
    leaves behind is kept in both cases (nothing is rolled back). *)
Definition M (S A : Type) : Type := S -> outcome A * S.

Definition ret {S A} (a : A) : M S A := fun s => (Return a, s).

Definition raise {S A} (e : exn) : M S A := fun s => (Raise e, s).

Definition bind {S A B} (m : M S A) (k : A -> M S B) : M S B :=
  fun s =>
    match m s with
    | (Return a, s') => k a s'
    | (Raise e, s') => (Raise e, s')
    end.

Notation "'do' x <- m ; k" := (bind m (fun x => k))
  (at level 10, x name, m at level 100, k at level 200).
Notation "m1 ;; m2" := (bind m1 (fun _ => m2))
  (at level 100, m2 at level 200, right associativity).

Definition get {S A} (proj : S -> A) : M S A := fun s => (Return (proj s), s).

Definition modify {S} (f : S -> S) : M S unit := fun s => (Return tt, f s).

(** [for x in l: body(x)] *)
Fixpoint for_each {S A} (l : list A) (body : A -> M S unit) : M S unit :=
  match l with
  | [] => ret tt
  | x :: l' => body x ;; for_each l' body
  end.

(** ** The environment of the module *)

(** What the module takes from its surroundings and does not define:
    the values of [PT_OPERATOR_METATYPES.registry_dict], in order; which
    attribute slots reject assignment (Python raises on [setattr] there); and
    what calling a callable of the framework does, used for the call of
    [_ORIG_JIT_SCRIPT]. *)
Record Env := {
  PT_OPERATOR_METATYPES : list OperatorMetatype;
  read_only : namespace -> string -> bool;
  call_builtin : obj -> list obj -> outcome obj;
}.

(** ** Attribute access *)

Definition log_access (a : ns_access) : M State unit :=
  modify (fun s => with_accesses (accesses s ++ [a]) s).

(** [hasattr(namespace, name)] *)
Definition hasattr (ns : namespace) (name : string) : M State bool :=
  log_access (Hasattr ns name) ;;
  do m <- get attrs;
  ret (bool_decide (is_Some (m !! (ns, name)))).

(** [getattr(namespace, name)]; raises [AttributeError] on a missing name. *)
Definition getattr (ns : namespace) (name : string) : M State obj :=
  log_access (Getattr ns name) ;;
  do m <- get attrs;
  match m !! (ns, name) with
  | Some v => ret v
  | None => raise (AttributeError name)
  end.

(** [setattr(namespace, name, value)]; raises where the slot rejects
    assignment, and creates the attribute where it does not exist. *)
Definition setattr (E : Env) (ns : namespace) (name : string) (v : obj) : M State unit :=
  log_access (Setattr ns name v) ;;
  if read_only E ns name then raise (AttributeError name)
  else modify (fun s => with_attrs (<[(ns, name) := v]> (attrs s)) s).

(** [warnings.warn(msg)] *)
Definition warnings_warn (msg : string) : M State unit :=
  modify (fun s => with_warnings_issued (warnings_issued s ++ [msg]) s).

(** A new function object closing over [c]: its reference is the next free
    index of the closure table. *)
Definition new_closure (c : closure) : M State obj :=
  do l <- get closures;
  modify (with_closures (l ++ [c])) ;;
  ret (Closure (length l)).

(** Modelled from the spec: [wrap_operator] of [nncf.dynamic_graph.wrappers],
    which is not part of this file.  [makeWrapper(originalCallable,
    descriptor)] produces a replacement callable that performs interception
    around the original call: a new function object closing over the original
    and the descriptor. *)
Definition wrap_operator (operator : obj) (operator_info : PatchedOperatorInfo) : M State obj :=
  new_closure (wrap_operator_closure operator operator_info).

(** Modelled from the spec: [wrap_module_call] of
    [nncf.dynamic_graph.wrappers], the module-call wrapper, an opaque
    operation that wraps the generic module-invocation entry point: a new
    function object closing over it. *)
Definition wrap_module_call (module_call : obj) : M State obj :=
  new_closure (wrap_module_call_closure module_call).

(** Modelled from the spec: [ignore_scope] of [nncf.dynamic_graph.wrappers],
    which marks a module type as scope-ignored, an opaque annotation consumed
    by the graph builder. *)
Definition ignore_scope (cls : module_class) : M State unit :=
  modify (fun s => with_ignored_scopes (ignored_scopes s ++ [cls]) s).

(** ** The functions of the module *)

(** [patch_torch_jit_script] *)
Definition patch_torch_jit_script (E : Env) : M State unit :=
  do orig <- getattr torch_jit "script";
  modify (with_ORIG_JIT_SCRIPT (Some orig)) ;;
  setattr E torch_jit "script" torch_jit_script_wrapper_fn.

Definition missing_warning (name : string) : string :=
  "Not patching " +:+ name +:+ " since it is missing in this version of PyTorch".

(** [patch_namespace_opname] *)
Definition patch_namespace_opname (E : Env) (ns : namespace)
    (patched_op_info : PatchedOperatorInfo) : M State unit :=
  let name := poi_name patched_op_info in
  do present <- hasattr ns name;
  if present then
    do orig <- getattr ns name;
    modify (fun s => with_ORIGINAL_OPERATORS
      (ORIGINAL_OPERATORS s ++
         [{| ooi_name := name; ooi_namespace := ns; ooi_op := orig |}]) s) ;;
    do w <- wrap_operator orig patched_op_info;
    setattr E ns name w
  else
    warnings_warn (missing_warning name).

(** [patch_namespace_by_patchspec] *)
Definition patch_namespace_by_patchspec (E : Env) (ns : namespace)
    (patchspec : PatchSpec) : M State unit :=
  for_each (underlying_function_names patchspec) (fun op_name =>
    let patched_op_info :=
      {| poi_name := op_name; poi_custom_trace_fn := custom_trace_fn patchspec |} in
    patch_namespace_opname E ns patched_op_info).

(** [if spec is not None: patch_namespace_by_patchspec(namespace, spec)] *)
Definition patch_if_not_None (E : Env) (ns : namespace) (spec : option PatchSpec) : M State unit :=
  match spec with
  | Some ps => patch_namespace_by_patchspec E ns ps
  | None => ret tt
  end.

(** The body of the loop over the operator metatypes. *)
Definition patch_op_meta_class (E : Env) (op_meta_class : OperatorMetatype) : M State unit :=
  patch_if_not_None E F (torch_nn_functional_patch_spec op_meta_class) ;;
  patch_if_not_None E torch (torch_module_patch_spec op_meta_class) ;;
  patch_if_not_None E TracedTensor (torch_tensor_patch_spec op_meta_class).

(** [patch_torch_operators] *)
Definition patch_torch_operators (E : Env) : M State unit :=
  do jit_wrapped <- get _JIT_ALREADY_WRAPPED;
  (if negb jit_wrapped then
     patch_torch_jit_script E ;;
     modify (with_JIT_ALREADY_WRAPPED true)
   else ret tt) ;;
  do ops_wrapped <- get _OPERATORS_ALREADY_WRAPPED;
  if ops_wrapped then ret tt
  else
    modify (with_OPERATORS_ALREADY_WRAPPED true) ;;
    for_each (PT_OPERATOR_METATYPES E) (patch_op_meta_class E) ;;
    patch_namespace_opname E TracedTensor
      {| poi_name := "__repr__"; poi_custom_trace_fn := Some ForwardTraceOnly |} ;;
    do call0 <- getattr torch_nn_Module "__call__";
    modify (fun s => with_ORIGINAL_OPERATORS
      (ORIGINAL_OPERATORS s ++
         [{| ooi_name := "__call__"; ooi_namespace := torch_nn_Module;
             ooi_op := call0 |}]) s) ;;
    do call1 <- getattr torch_nn_Module "__call__";
    do w <- wrap_module_call call1;
    setattr E torch_nn_Module "__call__" w ;;
    ignore_scope DataParallel ;;
    ignore_scope DistributedDataParallel.

(** [unpatch_torch_operators] *)
Definition unpatch_torch_operators (E : Env) : M State unit :=
  do ops_wrapped <- get _OPERATORS_ALREADY_WRAPPED;
  if negb ops_wrapped then ret tt
  else
    modify (with_OPERATORS_ALREADY_WRAPPED false) ;;
    do originals <- get ORIGINAL_OPERATORS;
    for_each originals (fun orig_op_info =>
      setattr E (ooi_namespace orig_op_info) (ooi_name orig_op_info)
        (ooi_op orig_op_info)).

(** Calling the object stored in [_ORIG_JIT_SCRIPT]: calling [None] raises
    [TypeError]; otherwise the framework's callable runs. *)
Definition call_ORIG_JIT_SCRIPT (E : Env) (args : list obj) : M State obj :=
  do f <- get _ORIG_JIT_SCRIPT;
  match f with
  | None => raise (TypeError "'NoneType' object is not callable")
  | Some orig =>
      match call_builtin E orig args with
      | Return v => ret v
      | Raise e => raise e
      end
  end.

(** [torch_jit_script_wrapper] *)
Definition torch_jit_script_wrapper (E : Env) (args : list obj) : M State obj :=
  unpatch_torch_operators E ;;
  do retval <- call_ORIG_JIT_SCRIPT E args;
  patch_torch_operators E ;;
  ret retval.

(** The state of the process when the module has just been imported: the
    namespaces hold the framework's own objects, and the module globals have
    their initial values. *)
Definition initial_state (framework : gmap (namespace * string) nat) : State :=
  {| attrs := Builtin <$> framework; closures := [];
     ORIGINAL_OPERATORS := [];
     _JIT_ALREADY_WRAPPED := false;
     _OPERATORS_ALREADY_WRAPPED := false;
     _ORIG_JIT_SCRIPT := None;
     warnings_issued := [];
     ignored_scopes := [];
     accesses := [] |}.

(** ** Traced values *)

(** Modelled from the spec: [TensorMeta] of [nncf.dynamic_graph.trace_tensor],
    the provenance metadata of a traced value, a shape / identity descriptor.
    [creator_id] is the identity part; [shape] is the attribute the policy
    assigns. *)
Record TensorMeta := {
  creator_id : nat;
  shape : list nat;
}.

#[global] Instance TensorMeta_eq_dec : EqDecision TensorMeta.
Proof. solve_decision. Defined.

(** The values an operator takes and returns.  A tensor is identified by
    [data] and has a shape; a [TracedTensor] is a [Tensor] (a subclass) that
    also refers to a [TensorMeta] object, by its index in the store of the
    [World]; [VOther] is an object that is none of these (an [int], a [str],
    [None]) and has neither attribute. *)
#[warnings="-register-all"] Inductive value :=
  | VTensor (data : nat) (tensor_shape : list nat)
  | VTracedTensor (data : nat) (tensor_shape : list nat) (tensor_meta : nat)
  | VOther (n : nat)
  | VList (items : list value)
  | VTuple (items : list value).

(** [isinstance(v, Tensor)] *)
Definition isinstance_Tensor (v : value) : bool :=
  match v with
  | VTensor _ _ | VTracedTensor _ _ _ => true
  | _ => false
  end.

(** [isinstance(v, TracedTensor)] *)
Definition isinstance_TracedTensor (v : value) : bool :=
  match v with
  | VTracedTensor _ _ _ => true
  | _ => false
  end.

(** An operator: its [__name__] and what a call returns or raises. *)
Record Operator := {
  __name__ : string;
  run : list value -> list (string * value) -> outcome value;
}.

(** One execution of an operator. *)
Record Execution := {
  exec_name : string;
  exec_args : list value;
  exec_kwargs : list (string * value);
}.

(** What a traced call acts on: the store of [TensorMeta] objects (a
    reference is an index; objects are never freed) and the executions of
    operators so far. *)
Record World := {
  metas : list TensorMeta;
  executed : list Execution;
}.

(** The call of [operator] on the arguments: the operator runs, then returns
    or raises. *)
Definition call_operator (operator : Operator) (args : list value)
    (kwargs : list (string * value)) : M World value :=
  modify (fun w => {| metas := metas w;
                      executed := executed w ++
                        [{| exec_name := __name__ operator; exec_args := args;
                            exec_kwargs := kwargs |}] |}) ;;
  match run operator args kwargs with
  | Return v => ret v
  | Raise e => raise e
  end.

(** [l[i]] *)
Definition getitem {S A} (l : list A) (i : nat) : M S A :=
  match l !! i with
  | Some v => ret v
  | None => raise IndexError
  end.

(** [v.tensor_meta] *)
Definition get_tensor_meta (v : value) : M World nat :=
  match v with
  | VTracedTensor _ _ m => ret m
  | _ => raise (AttributeError "tensor_meta")
  end.

(** [v.shape] *)
Definition get_shape (v : value) : M World (list nat) :=
  match v with
  | VTensor _ sh | VTracedTensor _ sh _ => ret sh
  | _ => raise (AttributeError "shape")
  end.

(** [deepcopy(m)] for a reference [m] to a [TensorMeta]: a new object with the
    same contents. *)
Definition deepcopy (m : nat) : M World nat :=
  do store <- get metas;
  match store !! m with
  | Some c =>
      modify (fun w => {| metas := metas w ++ [c]; executed := executed w |}) ;;
      ret (length store)
  | None => raise (AttributeError "tensor_meta")
  end.

(** [m.shape = sh] *)
Definition set_shape (m : nat) (sh : list nat) : M World unit :=
  modify (fun w =>
    {| metas := alter (fun c => {| creator_id := creator_id c; shape := sh |}) m (metas w);
       executed := executed w |}).

(** Modelled from the spec: [TracedTensor.from_torch_tensor] of
    [nncf.dynamic_graph.trace_tensor], the capability "wrap a raw value with
    metadata"; wrapping preserves the value's identity and shape and layers a
    metadata association on it. *)
Definition from_torch_tensor (v : value) (meta : nat) : M World value :=
  match v with
  | VTensor d sh | VTracedTensor d sh _ => ret (VTracedTensor d sh meta)
  | _ => raise (AttributeError "tensor_meta")
  end.

(** [[i for i in range(len(l)) if p(l[i])]] *)
Definition indices_where (p : value -> bool) (l : list value) : list nat :=
  List.filter (fun i => match l !! i with Some v => p v | None => false end)
    (seq 0 (length l)).

(** The three statements both loops of [ForwardTraceOnly.__call__] run for an
    input reference [in_idx] and an output index [out_idx]; the new [result]
    list is returned. *)
Definition forward_meta (fargs : list value) (in_idx : nat)
    (result : list value) (out_idx : nat) : M World (list value) :=
  do arg <- getitem fargs in_idx;
  do m <- get_tensor_meta arg;
  do forwarded_meta <- deepcopy m;
  do out <- getitem result out_idx;
  do sh <- get_shape out;
  set_shape forwarded_meta sh ;;
  do out' <- getitem result out_idx;
  do traced <- from_torch_tensor out' forwarded_meta;
  ret (<[out_idx := traced]> result).

(** A [for] loop that updates the local [result]. *)
Fixpoint for_fold {S A B} (l : list A) (body : B -> A -> M S B) (acc : B) : M S B :=
  match l with
  | [] => ret acc
  | x :: l' => do acc' <- body acc x; for_fold l' body acc'
  end.

Definition mismatch_message (operator : Operator) : string :=
  "Unable to forward trace through operator " +:+ __name__ operator +:+
  " - input and output tensor count mismatch!".

(** [ForwardTraceOnly.__call__].  [flatten_args] is imported from
    [nncf.dynamic_graph.trace_tensor] and is a parameter here. *)
Definition ForwardTraceOnly_call
    (flatten_args : list value -> list (string * value) -> list value)
    (operator : Operator) (args : list value) (kwargs : list (string * value))
    : M World value :=
  do result <- call_operator operator args kwargs;
  let fargs := flatten_args args kwargs in
  let input_traced_tensor_indices := indices_where isinstance_TracedTensor fargs in
  let on_sequence (was_tuple : bool) (items : list value) : M World value :=
    let output_tensors_to_be_traced_indices := indices_where isinstance_Tensor items in
    do result' <-
      (if decide (length input_traced_tensor_indices = 1) then
         for_fold output_tensors_to_be_traced_indices
           (fun result out_idx =>
              do in_idx <- getitem input_traced_tensor_indices 0;
              forward_meta fargs in_idx result out_idx)
           items
       else if decide (length input_traced_tensor_indices ≠
                       length output_tensors_to_be_traced_indices) then
         raise (RuntimeError (mismatch_message operator))
       else
         for_fold (zip input_traced_tensor_indices output_tensors_to_be_traced_indices)
           (fun result io => forward_meta fargs io.1 result io.2)
           items);
    ret (if was_tuple then VTuple result' else VList result') in
  match result with
  | VList items => on_sequence false items
  | VTuple items => on_sequence true items
  | _ =>
      if decide (1 < length input_traced_tensor_indices) then
        raise (RuntimeError (mismatch_message operator))
      else if decide (input_traced_tensor_indices ≠ []) then
        do in_idx <- getitem input_traced_tensor_indices 0;
        do arg <- getitem fargs in_idx;
        do m <- get_tensor_meta arg;
        do forwarded_meta <- deepcopy m;
        do sh <- get_shape result;
        set_shape forwarded_meta sh ;;
        from_torch_tensor result forwarded_meta
      else
        ret result
  end.

(** ** Vocabulary of the properties *)

(** The slot [t] holds a function object created by [wrap_operator] or
    [wrap_module_call] whose closure points to [o]. *)
Definition holds_wrapper_of (s : State) (t : namespace * string) (o : obj) : Prop :=
  exists k c, attrs s !! t = Some (Closure k) /\ closures s !! k = Some c /\
              closure_original c = o.

(** The registry and the flag agree: the flag is set exactly when the registry
    is not empty and every recorded slot holds a wrapper of the recorded
    original. *)
Definition registry_consistent (s : State) : Prop :=
  _OPERATORS_ALREADY_WRAPPED s = true <->
  (ORIGINAL_OPERATORS s <> [] /\
   forall r, r ∈ ORIGINAL_OPERATORS s -> holds_wrapper_of s (ooi_target r) (ooi_op r)).

(** The two entry points of the life cycle, and a sequence of calls of them. *)
Inductive lifecycle_call :=
  | patchAll
  | unpatchAll.

Definition run_call (E : Env) (c : lifecycle_call) : M State unit :=
  match c with
  | patchAll => patch_torch_operators E
  | unpatchAll => unpatch_torch_operators E
  end.

Definition run_calls (E : Env) (cs : list lifecycle_call) : M State unit :=
  for_each cs (run_call E).

(** The calls of [patch_namespace_opname] that one [patch_torch_operators]
    makes, in order: a namespace and a descriptor each. *)
Definition jobs_of_patchspec (ns : namespace) (ps : PatchSpec)
    : list (namespace * PatchedOperatorInfo) :=
  map (fun op_name =>
         (ns, {| poi_name := op_name; poi_custom_trace_fn := custom_trace_fn ps |}))
      (underlying_function_names ps).

Definition jobs_of_option (ns : namespace) (spec : option PatchSpec)
    : list (namespace * PatchedOperatorInfo) :=
  match spec with
  | Some ps => jobs_of_patchspec ns ps
  | None => []
  end.

Definition jobs_of_meta (m : OperatorMetatype) : list (namespace * PatchedOperatorInfo) :=
  jobs_of_option F (torch_nn_functional_patch_spec m) ++
  jobs_of_option torch (torch_module_patch_spec m) ++
  jobs_of_option TracedTensor (torch_tensor_patch_spec m).

Definition repr_job : namespace * PatchedOperatorInfo :=
  (TracedTensor, {| poi_name := "__repr__"; poi_custom_trace_fn := Some ForwardTraceOnly |}).

Definition patch_jobs (E : Env) : list (namespace * PatchedOperatorInfo) :=
  flat_map jobs_of_meta (PT_OPERATOR_METATYPES E) ++ [repr_job].

Definition patch_job (E : Env) (j : namespace * PatchedOperatorInfo) : M State unit :=
  patch_namespace_opname E j.1 j.2.

Definition job_target (j : namespace * PatchedOperatorInfo) : namespace * string :=
  (j.1, poi_name j.2).

(** Every slot one [patch_torch_operators] tries to patch, in order; the last
    one is [torch.nn.Module.__call__]. *)
Definition patch_targets (E : Env) : list (namespace * string) :=
  map job_target (patch_jobs E) ++ [(torch_nn_Module, "__call__")].

(** [present m t]: the slot [t] exists in the attribute map [m]. *)
Definition present (m : gmap (namespace * string) obj) (t : namespace * string) : bool :=
  bool_decide (is_Some (m !! t)).

(** The original recorded for [t] by the first, and by the last, record of a
    list that names [t]. *)
Fixpoint first_op (t : namespace * string) (l : list OriginalOpInfo) : option obj :=
  match l with
  | [] => None
  | r :: l' => if decide (ooi_target r = t) then Some (ooi_op r) else first_op t l'
  end.

Fixpoint last_op (t : namespace * string) (l : list OriginalOpInfo) : option obj :=
  match l with
  | [] => None
  | r :: l' =>
      match last_op t l' with
      | Some o => Some o
      | None => if decide (ooi_target r = t) then Some (ooi_op r) else None
      end
  end.



(** [n] calls of [patch_torch_operators] in a row. *)
Definition patch_repeatedly (E : Env) (n : nat) : M State unit :=
  for_each (replicate n tt) (fun _ => patch_torch_operators E).

(** A relation between the state before and after, kept by a statement
    whatever its outcome. *)
Definition keeps {S A} (R : S -> S -> Prop) (m : M S A) : Prop :=
  forall s r s', m s = (r, s') -> R s s'.

(** The two flags are what they were. *)
Definition same_flags (s s' : State) : Prop :=
  _JIT_ALREADY_WRAPPED s' = _JIT_ALREADY_WRAPPED s /\
  _OPERATORS_ALREADY_WRAPPED s' = _OPERATORS_ALREADY_WRAPPED s.

(** The slot of the compilation entry point, [torch.jit.script]. *)
Definition jit_slot : namespace * string := (torch_jit, "script").

(** [patched new s s']: between [s] and [s'] the records [new] were appended
    to the registry, no function object was lost, a slot that no record of
    [new] names is untouched (the slot of [torch.jit.script] apart), the
    first record for a slot holds what the slot held in [s], and the slot
    holds in [s'] a wrapper of what its last record holds. *)
Record patched (new : list OriginalOpInfo) (s s' : State) : Prop := {
  patched_closures : closures s `prefix_of` closures s';
  patched_registry : ORIGINAL_OPERATORS s' = ORIGINAL_OPERATORS s ++ new;
  patched_namespaces : forall r, r ∈ new -> ooi_namespace r <> torch_jit;
  patched_untouched : forall t, t <> jit_slot -> last_op t new = None ->
    attrs s' !! t = attrs s !! t;
  patched_first : forall t o, first_op t new = Some o -> attrs s !! t = Some o;
  patched_last : forall t o, last_op t new = Some o -> holds_wrapper_of s' t o;
}.

(** The two halves of [patch_torch_operators], named: the guarded patch of
    [torch.jit.script], and the guarded patch of the operators. *)
Definition jit_phase (E : Env) : M State unit :=
  do jit_wrapped <- get _JIT_ALREADY_WRAPPED;
  if negb jit_wrapped then
    patch_torch_jit_script E ;;
    modify (with_JIT_ALREADY_WRAPPED true)
  else ret tt.

(** The three statements that record and wrap [torch.nn.Module.__call__]. *)
Definition patch_module_call (E : Env) : M State unit :=
  do call0 <- getattr torch_nn_Module "__call__";
  modify (fun s => with_ORIGINAL_OPERATORS
    (ORIGINAL_OPERATORS s ++
       [{| ooi_name := "__call__"; ooi_namespace := torch_nn_Module;
           ooi_op := call0 |}]) s) ;;
  do call1 <- getattr torch_nn_Module "__call__";
  do w <- wrap_module_call call1;
  setattr E torch_nn_Module "__call__" w.

(** What [patch_torch_operators] runs once the flag is set. *)
Definition patch_body (E : Env) : M State unit :=
  for_each (patch_jobs E) (patch_job E) ;;
  patch_module_call E ;;
  ignore_scope DataParallel ;;
  ignore_scope DistributedDataParallel.

Definition ops_phase (E : Env) : M State unit :=
  do ops_wrapped <- get _OPERATORS_ALREADY_WRAPPED;
  if ops_wrapped then ret tt
  else modify (with_OPERATORS_ALREADY_WRAPPED true) ;; patch_body E.

(** ** Concrete frameworks and registries *)

(** A small framework: [relu] in [F] and in [torch], [__repr__] on the traced
    class, [Module.__call__] and [torch.jit.script]; there is no [gelu]. *)
Definition small_framework : gmap (namespace * string) nat :=
  list_to_map [((F, "relu"), 1); ((torch, "relu"), 2);
               ((TracedTensor, "__repr__"), 3);
               ((torch_nn_Module, "__call__"), 4);
               ((torch_jit, "script"), 5)].

Definition spec_of (names : list string) : option PatchSpec :=
  Some {| underlying_function_names := names; custom_trace_fn := None |}.

(** One metatype that names [relu] and the missing [gelu] in [F], and [relu]
    in [torch]. *)
Definition relu_meta : OperatorMetatype :=
  {| torch_nn_functional_patch_spec := spec_of ["relu"; "gelu"];
     torch_module_patch_spec := spec_of ["relu"];
     torch_tensor_patch_spec := None |}.


Definition env_of (registry : list OperatorMetatype)
    (ro : namespace -> string -> bool) (jit : outcome obj) : Env :=
  {| PT_OPERATOR_METATYPES := registry;
     read_only := ro;
     call_builtin := fun _ _ => jit |}.

(** Every slot writable, compilation succeeds. *)
Definition plain_env : Env :=
  env_of [relu_meta] (fun _ _ => false) (Return (Builtin 9)).


(** [torch.relu] rejects assignment. *)
Definition frozen_env : Env :=
  env_of [relu_meta]
    (fun ns name => bool_decide (ns = torch /\ name = "relu"))
    (Return (Builtin 9)).

(** Compilation raises. *)
Definition failing_jit_env : Env :=
  env_of [relu_meta] (fun _ _ => false) (Raise (RuntimeError "cannot compile")).

(** The states the examples start from and pass through. *)
Definition small_start : State := initial_state small_framework.

Definition after_calls (E : Env) (cs : list lifecycle_call) : State :=
  (run_calls E cs small_start).2.


(** The slots of [patch_targets] that exist in a framework. *)
Definition existing_targets (E : Env) (fw : gmap (namespace * string) nat)
    : list (namespace * string) :=
  List.filter (present (Builtin <$> fw)) (patch_targets E).

(** What holds of every state that calls of the two entry points reach from
    the initial state of a framework [fw], when each call returns. *)
Record lifecycle_invariant (E : Env) (fw : gmap (namespace * string) nat)
    (s : State) : Prop := {
  inv_records : forall r, r ∈ ORIGINAL_OPERATORS s ->
    ooi_target r ∈ existing_targets E fw /\
    (Builtin <$> fw) !! ooi_target r = Some (ooi_op r);
  inv_unpatched : _OPERATORS_ALREADY_WRAPPED s = false ->
    forall t, t <> jit_slot -> attrs s !! t = (Builtin <$> fw) !! t;
  inv_jit : _OPERATORS_ALREADY_WRAPPED s = true -> _JIT_ALREADY_WRAPPED s = true;
  inv_nonempty : _OPERATORS_ALREADY_WRAPPED s = true -> ORIGINAL_OPERATORS s <> [];
  inv_recorded : _OPERATORS_ALREADY_WRAPPED s = true ->
    forall t, t ∈ existing_targets E fw -> t ∈ map ooi_target (ORIGINAL_OPERATORS s);
  inv_wrapped : _OPERATORS_ALREADY_WRAPPED s = true ->
    forall t o, t ∈ existing_targets E fw -> (Builtin <$> fw) !! t = Some o ->
    holds_wrapper_of s t o;
  inv_others : _OPERATORS_ALREADY_WRAPPED s = true ->
    forall t, t <> jit_slot -> t ∉ existing_targets E fw ->
    attrs s !! t = (Builtin <$> fw) !! t;
}.

Definition relu_gelu_spec : PatchSpec :=
  {| underlying_function_names := ["relu"; "gelu"]; custom_trace_fn := None |}.

(** ** Vocabulary of the forwarding properties *)

(** The identity and the shape of a tensor. *)
Definition value_data (v : value) : nat :=
  match v with
  | VTensor d _ | VTracedTensor d _ _ => d
  | _ => 0
  end.

Definition value_shape (v : value) : list nat :=
  match v with
  | VTensor _ sh | VTracedTensor _ sh _ => sh
  | _ => []
  end.

(** The tensor [v] as a traced tensor that refers to the metadata object
    [meta]. *)
Definition traced_with (v : value) (meta : nat) : value :=
  VTracedTensor (value_data v) (value_shape v) meta.

(** The contents of a copy of [m] whose shape was assigned. *)
Definition with_shape (m : TensorMeta) (sh : list nat) : TensorMeta :=
  {| creator_id := creator_id m; shape := sh |}.

(** [isinstance(v, (list, tuple))] *)
Definition is_sequence (v : value) : bool :=
  match v with
  | VList _ | VTuple _ => true
  | _ => false
  end.

(** A list or a tuple of the given items. *)
Definition sequence (was_tuple : bool) (items : list value) : value :=
  if was_tuple then VTuple items else VList items.

(** The world after one execution of [operator] on the arguments and nothing
    else. *)
Definition executed_once (operator : Operator) (args : list value)
    (kwargs : list (string * value)) (w : World) : World :=
  {| metas := metas w;
     executed := executed w ++
       [{| exec_name := __name__ operator; exec_args := args;
           exec_kwargs := kwargs |}] |}.

(** Every traced tensor among the flattened arguments refers to a metadata
    object of the store. *)
Definition metas_of_args_exist (fargs : list value) (w : World) : Prop :=
  forall i d sh l, fargs !! i = Some (VTracedTensor d sh l) -> is_Some (metas w !! l).

(** The pair [(in_idx, out_idx)] can be forwarded: the argument is a traced
    tensor whose metadata is in the store, the output is a tensor. *)
Definition forwardable (fargs : list value) (w : World) (items : list value)
    (io : nat * nat) : Prop :=
  exists d sh l m x,
    fargs !! io.1 = Some (VTracedTensor d sh l) /\ metas w !! l = Some m /\
    items !! io.2 = Some x /\ isinstance_Tensor x = true.

(** What forwarding the pairs [ios], taken in order, has done to the result
    list and to the store: the output of the pair at position [pos] is the
    same tensor, traced, with a metadata object of its own, created at that
    step, that holds the creator of the input and the shape of the output. *)
Definition forwarded (fargs : list value) (w : World) (items : list value)
    (ios : list (nat * nat)) (items' : list value) (w' : World) : Prop :=
  length items' = length items /\
  executed w' = executed w /\
  metas w `prefix_of` metas w' /\
  length (metas w') = length (metas w) + length ios /\
  (forall j, j ∉ map snd ios -> items' !! j = items !! j) /\
  (forall pos io, ios !! pos = Some io ->
     exists d sh l m x,
       fargs !! io.1 = Some (VTracedTensor d sh l) /\ metas w !! l = Some m /\
       items !! io.2 = Some x /\
       items' !! io.2 = Some (traced_with x (length (metas w) + pos)) /\
       metas w' !! (length (metas w) + pos) = Some (with_shape m (value_shape x))).

(** The single-value claim as the specification words it: whatever single
    value the operator returns, with exactly one traced argument the call
    returns that value traced. *)
Definition single_result_is_wrapped
    (flatten_args : list value -> list (string * value) -> list value)
    (operator : Operator) (args : list value) (kwargs : list (string * value))
    (w : World) : Prop :=
  forall v,
    run operator args kwargs = Return v -> is_sequence v = false ->
    length (indices_where isinstance_TracedTensor (flatten_args args kwargs)) = 1 ->
    exists d sh l w',
      ForwardTraceOnly_call flatten_args operator args kwargs w =
        (Return (VTracedTensor d sh l), w').

(** ** Concrete operators and arguments *)

(** Modelled from the spec: [flatten_args] flattens the positional and the
    keyword arguments, in that order, into one sequence.  This instance
    flattens one level of lists and tuples. *)
Definition flatten_one_level (args : list value) (kwargs : list (string * value))
    : list value :=
  flat_map (fun v => match v with
                     | VList items | VTuple items => items
                     | _ => [v]
                     end)
           (args ++ map snd kwargs).

(** An operator that returns the same value whatever it is called on. *)
Definition constant_operator (name : string) (v : value) : Operator :=
  {| __name__ := name; run := fun _ _ => Return v |}.

(** A store with two metadata objects, of creators 10 and 20. *)
Definition two_metas : World :=
  {| metas := [{| creator_id := 10; shape := [2; 3] |};
               {| creator_id := 20; shape := [4] |}];
     executed := [] |}.

Definition traced_a : value := VTracedTensor 100 [2; 3] 0.
Definition traced_b : value := VTracedTensor 101 [4] 1.
Definition plain_c : value := VTensor 102 [5].

Definition out_x : value := VTensor 200 [7].
Definition out_y : value := VTensor 201 [8; 9].
Definition out_z : value := VTensor 202 [1].

(** One traced argument and a plain one; two traced arguments, the second
    passed by keyword. *)
Definition one_traced : list value := [traced_a; plain_c].
Definition keyword_b : list (string * value) := [("other", traced_b)].

(** An operator with three tensors and a number in a tuple; one with two
    tensors and a number in a list; one with a single tensor; one with a
    single value that is not a tensor. *)
Definition three_outputs : list value := [out_x; VOther 1; out_y; out_z].
Definition two_outputs : list value := [out_x; VOther 1; out_y].
Definition split_operator : Operator := constant_operator "split" (VTuple three_outputs).
Definition pair_operator : Operator := constant_operator "pair" (VList two_outputs).
Definition tensor_operator : Operator := constant_operator "contiguous" out_x.
Definition repr_operator : Operator := constant_operator "__repr__" (VOther 3).

(** ** The entry points together *)

(** The three functions of the module a process calls: the two of the life
    cycle and the function installed as [torch.jit.script]. *)
Inductive entry_point :=
  | call_patch
  | call_unpatch
  | call_jit_script (args : list obj).

(** One call, its return value dropped. *)
Definition run_entry (E : Env) (c : entry_point) : M State unit :=
  match c with
  | call_patch => patch_torch_operators E
  | call_unpatch => unpatch_torch_operators E
  | call_jit_script args => torch_jit_script_wrapper E args ;; ret tt
  end.

(** A sequence of calls, each of which returns. *)
Definition run_entries (E : Env) (cs : list entry_point) : M State unit :=
  for_each cs (run_entry E).

(** The state a call leaves, whether it returns or raises, and the state a
    sequence of calls leaves when the caller goes on after an exception. *)
Definition state_after (E : Env) (s : State) (c : entry_point) : State :=
  (run_entry E c s).2.

Definition states_after (E : Env) (cs : list entry_point) (s : State) : State :=
  fold_left (state_after E) cs s.

(** How many times a sequence of calls that return patches the operators
    anew, given whether they are patched at the start: a call of
    [patch_torch_operators] does when they are unpatched, a call of the shim
    always does (it unpatches first). *)
Fixpoint sessions_opened (wrapped : bool) (cs : list entry_point) : nat :=
  match cs with
  | [] => 0
  | call_patch :: cs' => (if wrapped then 0 else 1) + sessions_opened true cs'
  | call_unpatch :: cs' => sessions_opened false cs'
  | call_jit_script _ :: cs' => 1 + sessions_opened true cs'
  end.

(** Nothing but the slot of [torch.jit.script] is off what a statement may
    touch: the slot, the JIT flag and the captured original are what they
    were, and every record that is new is outside [torch.jit]. *)
Definition off_jit (s s' : State) : Prop :=
  attrs s' !! jit_slot = attrs s !! jit_slot /\
  _JIT_ALREADY_WRAPPED s' = _JIT_ALREADY_WRAPPED s /\
  _ORIG_JIT_SCRIPT s' = _ORIG_JIT_SCRIPT s /\
  forall r, r ∈ ORIGINAL_OPERATORS s' ->
            r ∈ ORIGINAL_OPERATORS s \/ ooi_namespace r <> torch_jit.

(** What holds of the shim in every state that calls of the entry points
    reach from the initial state of a framework, whatever their outcomes. *)
Record jit_invariant (fw : gmap (namespace * string) nat) (s : State) : Prop := {
  jit_records : forall r, r ∈ ORIGINAL_OPERATORS s -> ooi_namespace r <> torch_jit;
  jit_unwrapped : _JIT_ALREADY_WRAPPED s = false ->
    attrs s !! jit_slot = (Builtin <$> fw) !! jit_slot;
  jit_wrapped : _JIT_ALREADY_WRAPPED s = true ->
    attrs s !! jit_slot = Some torch_jit_script_wrapper_fn /\
    is_Some (_ORIG_JIT_SCRIPT s);
  jit_orig : _ORIG_JIT_SCRIPT s = None \/
             _ORIG_JIT_SCRIPT s = (Builtin <$> fw) !! jit_slot;
}.

(** Which slots exist is what it was in the framework, the slot of
    [torch.jit.script] apart, and every record names a slot that exists. *)
Record presence_invariant (fw : gmap (namespace * string) nat) (s : State) : Prop := {
  presence_slots : forall t, t <> jit_slot ->
    present (attrs s) t = present (Builtin <$> fw) t;
  presence_records : forall r, r ∈ ORIGINAL_OPERATORS s ->
    present (Builtin <$> fw) (ooi_target r) = true /\ ooi_target r <> jit_slot;
  presence_jit : _OPERATORS_ALREADY_WRAPPED s = true -> _JIT_ALREADY_WRAPPED s = true;
}.

(** A framework without [torch.jit.script]. *)
Definition no_jit_framework : gmap (namespace * string) nat :=
  list_to_map [((F, "relu"), 1); ((torch_nn_Module, "__call__"), 4)].

(** A session with one compilation in it, then closed; the same left open;
    and the state a sequence of entry points leaves from [small_start]. *)
Definition compile_then_close : list entry_point :=
  [call_patch; call_jit_script []; call_unpatch].

Definition compile_in_session : list entry_point :=
  [call_patch; call_unpatch; call_patch; call_jit_script []].

Definition after_entries (E : Env) (cs : list entry_point) : State :=
  (run_entries E cs small_start).2.

(** The store of metadata has only grown and no operator has run: what every
    statement of the policy after the call of the operator keeps. *)
Definition store_grows (w w' : World) : Prop :=
  metas w `prefix_of` metas w' /\ executed w' = executed w.

(** An operator that raises. *)
Definition raising_operator (name : string) (e : exn) : Operator :=
  {| __name__ := name; run := fun _ _ => Raise e |}.

(** An operator that returns a list with a tensor in it, and one that returns
    a tuple without any. *)
Definition list_operator : Operator := constant_operator "chunk" (VList [out_x]).
Definition numbers_operator : Operator :=
  constant_operator "size" (VTuple [VOther 2; VOther 3]).

(** ** The patch of the extension build *)

(** The characters ['+'] and ['.']. *)
Definition plus_sign : Ascii.ascii := Ascii.ascii_of_nat 43.
Definition full_stop : Ascii.ascii := Ascii.ascii_of_nat 46.

(** [s.split(sep)] for a separator of one character: the pieces between the
    occurrences of [sep], empty pieces included; never empty. *)
Fixpoint str_split (sep : Ascii.ascii) (s : string) : list string :=
  match s with
  | EmptyString => [EmptyString]
  | String c s' =>
      if Ascii.eqb c sep then EmptyString :: str_split sep s'
      else match str_split sep s' with
           | piece :: pieces => String c piece :: pieces
           | [] => [String c EmptyString]
           end
  end.

(** [list(map(int, pieces))], where [py_int] is the builtin [int] on a
    string: the number, or the message of the [ValueError] it raises.  The
    first piece that fails decides. *)
Fixpoint map_int (py_int : string -> Z + string) (pieces : list string)
    : list Z + string :=
  match pieces with
  | [] => inl []
  | piece :: pieces' =>
      match py_int piece with
      | inr e => inr e
      | inl n =>
          match map_int py_int pieces' with
          | inr e => inr e
          | inl ns => inl (n :: ns)
          end
      end
  end.

(** [a < b] on lists of integers: the first place where they differ decides;
    if there is none, the shorter list is the smaller. *)
Fixpoint list_lt (a b : list Z) : bool :=
  match a, b with
  | [], [] => false
  | [], _ :: _ => true
  | _ :: _, [] => false
  | x :: a', y :: b' => if (x =? y)%Z then list_lt a' b' else (x <? y)%Z
  end.

(** What the two attributes of [torch.utils.cpp_extension] hold: the
    framework's function, or a wrapper the patch has put around what was
    there. *)
Inductive arch_flags_fn :=
  | get_cuda_arch_flags_original
  | sort_arch_flags (func : arch_flags_fn).

Inductive write_ninja_fn :=
  | write_ninja_file_original
  | remove_nvcc_dep_build (func : write_ninja_fn).

(** The two attributes and the warnings of the logger. *)
Record BuildState := {
  _get_cuda_arch_flags : arch_flags_fn;
  _write_ninja_file : write_ninja_fn;
  logger_warnings : list string;
}.

(** What the patch reads from its surroundings: [torch.__version__],
    [sys.platform], and the builtin [int] on strings. *)
Record BuildEnv := {
  torch_version : string;
  sys_platform : string;
  py_int : string -> Z + string;
}.

(** [logger.warning(msg)] *)
Definition logger_warning (msg : string) : M BuildState unit :=
  modify (fun b => {| _get_cuda_arch_flags := _get_cuda_arch_flags b;
                      _write_ninja_file := _write_ninja_file b;
                      logger_warnings := logger_warnings b ++ [msg] |}).

Definition cannot_parse_warning (e : string) : string :=
  "Skip applying a patch to building extension with a reason: " +:+
  "Cannot parse a PyTorch version with the error " +:+ e.

Definition not_supported_warning : string :=
  "Skip applying a patch to building extension with a reason: " +:+
  "PyTorch version is not supported for this".

(** The versions the branch for versions before 1.8.0 accepts. *)
Definition supported_old_versions : list string := ["1.5.1"; "1.7.0"; "1.7.1"].

(** [patch_extension_build_function].  The wrappers it installs are kept as
    constructors; what they do when called is not modelled. *)
Definition patch_extension_build_function (B : BuildEnv) : M BuildState unit :=
  let torch_version_numbers := hd EmptyString (str_split plus_sign (torch_version B)) in
  match map_int (py_int B) (str_split full_stop torch_version_numbers) with
  | inr e => logger_warning (cannot_parse_warning e)
  | inl split_torch_version =>
      if list_lt split_torch_version [1; 8; 0]%Z then
        if negb (bool_decide (torch_version B ∈ supported_old_versions)) then
          logger_warning not_supported_warning
        else
          modify (fun b =>
            {| _get_cuda_arch_flags := sort_arch_flags (_get_cuda_arch_flags b);
               _write_ninja_file := _write_ninja_file b;
               logger_warnings := logger_warnings b |})
      else if negb (String.eqb (sys_platform B) "win32") then
        modify (fun b =>
          {| _get_cuda_arch_flags := _get_cuda_arch_flags b;
             _write_ninja_file := remove_nvcc_dep_build (_write_ninja_file b);
             logger_warnings := logger_warnings b |})
      else ret tt
  end.

(** An instance of [int] for the examples: the strings of decimal digits,
    and the error message of the others. *)
Definition digit_value (c : Ascii.ascii) : option Z :=
  let n := Z.of_nat (Ascii.nat_of_ascii c) in
  if ((48 <=? n) && (n <=? 57))%Z then Some (n - 48)%Z else None.

Fixpoint digits_value (acc : Z) (s : string) : option Z :=
  match s with
  | EmptyString => Some acc
  | String c s' =>
      match digit_value c with
      | Some d => digits_value (10 * acc + d) s'
      | None => None
      end
  end.

Definition decimal_int (s : string) : Z + string :=
  match s with
  | EmptyString => inr ("invalid literal for int() with base 10: '" +:+ s +:+ "'")
  | _ =>
      match digits_value 0 s with
      | Some n => inl n
      | None => inr ("invalid literal for int() with base 10: '" +:+ s +:+ "'")
      end
  end.

Definition build_env (version platform : string) : BuildEnv :=
  {| torch_version := version; sys_platform := platform; py_int := decimal_int |}.

Definition unpatched_build : BuildState :=
  {| _get_cuda_arch_flags := get_cuda_arch_flags_original;
     _write_ninja_file := write_ninja_file_original;
     logger_warnings := [] |}.

(** A batch whose second name, [relu] in [torch], rejects assignment under
    [frozen_env]. *)
Definition torch_batch : PatchSpec :=
  {| underlying_function_names := ["gelu"; "relu"; "__call__"];
     custom_trace_fn := None |}.

(** * Properties *)

(** ** Statements *)

Section statements.
Context {S : Type}.

Lemma bind_Return {A B} (m : M S A) (k : A -> M S B) s a s1 :
  m s = (Return a, s1) -> bind m k s = k a s1.
Proof. unfold bind. by intros ->. Qed.

Lemma bind_Raise {A B} (m : M S A) (k : A -> M S B) s e s1 :
  m s = (Raise e, s1) -> bind m k s = (Raise e, s1).
Proof. unfold bind. by intros ->. Qed.

Lemma bind_inv_Return {A B} (m : M S A) (k : A -> M S B) s b s' :
  bind m k s = (Return b, s') ->
  exists a s1, m s = (Return a, s1) /\ k a s1 = (Return b, s').
Proof.
  unfold bind. destruct (m s) as [[a|e] s1]; [eauto | done].
Qed.

Lemma bind_inv {A B} (m : M S A) (k : A -> M S B) s r s' :
  bind m k s = (r, s') ->
  (exists a s1, m s = (Return a, s1) /\ k a s1 = (r, s')) \/
  (exists e, m s = (Raise e, s') /\ r = Raise e).
Proof.
  unfold bind. destruct (m s) as [[a|e] s1]; [eauto |].
  intros [= <- <-]. eauto.
Qed.

Lemma bind_assoc {A B C} (m : M S A) (k : A -> M S B) (h : B -> M S C) s :
  bind (bind m k) h s = bind m (fun a => bind (k a) h) s.
Proof. unfold bind. destruct (m s) as [[a|e] s1]; done. Qed.

Lemma bind_ext {A B} (m m' : M S A) (k k' : A -> M S B) s :
  (forall s0, m s0 = m' s0) -> (forall a s0, k a s0 = k' a s0) ->
  bind m k s = bind m' k' s.
Proof.
  intros Hm Hk. unfold bind. rewrite Hm.
  destruct (m' s) as [[a|e] s1]; [apply Hk | done].
Qed.

Lemma bind_ret_l {A B} (a : A) (k : A -> M S B) s : bind (ret a) k s = k a s.
Proof. done. Qed.

Lemma for_each_app {A} (l1 l2 : list A) (body : A -> M S unit) s :
  for_each (l1 ++ l2) body s = (for_each l1 body ;; for_each l2 body) s.
Proof.
  revert s. induction l1 as [|x l1 IH]; intros s; simpl; [done |].
  rewrite bind_assoc. apply bind_ext; [done | intros _ s0; apply IH].
Qed.

Lemma for_each_map {A B} (f : A -> B) (l : list A) (body : B -> M S unit) s :
  for_each (map f l) body s = for_each l (fun x => body (f x)) s.
Proof.
  revert s. induction l as [|x l IH]; intros s; simpl; [done |].
  apply bind_ext; [done | intros _ s0; apply IH].
Qed.

Lemma for_each_ext {A} (l : list A) (body body' : A -> M S unit) s :
  (forall x s0, body x s0 = body' x s0) ->
  for_each l body s = for_each l body' s.
Proof.
  intros H. revert s. induction l as [|x l IH]; intros s; simpl; [done |].
  apply bind_ext; [apply H | intros _ s0; apply IH].
Qed.

Lemma keeps_bind {A B} (R : S -> S -> Prop) `{!Transitive R}
    (m : M S A) (k : A -> M S B) :
  keeps R m -> (forall a, keeps R (k a)) -> keeps R (bind m k).
Proof.
  intros Hm Hk s r s' H. apply bind_inv in H as [(a & s1 & H1 & H2)|(e & H1 & _)].
  - etrans; [by eapply Hm | by eapply Hk].
  - by eapply Hm.
Qed.

Lemma keeps_for_each {A} (R : S -> S -> Prop) `{!Reflexive R} `{!Transitive R}
    (l : list A) (body : A -> M S unit) :
  (forall x, keeps R (body x)) -> keeps R (for_each l body).
Proof.
  intros Hb. induction l as [|x l IH]; simpl.
  - intros s r s' [= _ <-]. done.
  - apply keeps_bind; [done | apply Hb | done].
Qed.
End statements.

(** ** Records: the first and the last original of a slot *)

Lemma first_op_None t l : first_op t l = None <-> t ∉ map ooi_target l.
Proof.
  induction l as [|r l IH]; simpl.
  - split; [intros _; apply not_elem_of_nil | done].
  - case_decide as Hd.
    + split; [done |]. intros Hn. exfalso. apply Hn. subst. apply list_elem_of_here.
    + rewrite IH, not_elem_of_cons. intuition congruence.
Qed.

Lemma last_op_None t l : last_op t l = None <-> t ∉ map ooi_target l.
Proof.
  induction l as [|r l IH]; simpl.
  - split; [intros _; apply not_elem_of_nil | done].
  - rewrite not_elem_of_cons, <- IH.
    destruct (last_op t l); [| case_decide]; intuition congruence.
Qed.

Lemma first_op_app t l1 l2 :
  first_op t (l1 ++ l2) =
  match first_op t l1 with Some o => Some o | None => first_op t l2 end.
Proof. induction l1 as [|r l1 IH]; simpl; [done |]. by case_decide. Qed.

Lemma last_op_app t l1 l2 :
  last_op t (l1 ++ l2) =
  match last_op t l2 with Some o => Some o | None => last_op t l1 end.
Proof.
  induction l1 as [|r l1 IH]; simpl.
  - by destruct (last_op t l2).
  - rewrite IH. by destruct (last_op t l2).
Qed.

Lemma first_op_elem t o l :
  first_op t l = Some o -> exists r, r ∈ l /\ ooi_target r = t /\ ooi_op r = o.
Proof.
  induction l as [|r l IH]; simpl; [done |]. case_decide.
  - intros [= <-]. exists r. split; [apply list_elem_of_here | done].
  - intros (r' & ? & ?)%IH. exists r'. split; [by apply list_elem_of_further | done].
Qed.

Lemma last_op_elem t o l :
  last_op t l = Some o -> exists r, r ∈ l /\ ooi_target r = t /\ ooi_op r = o.
Proof.
  induction l as [|r l IH]; simpl; [done |].
  destruct (last_op t l) as [o'|] eqn:Hl.
  - intros [= <-]. destruct (IH eq_refl) as (r' & ? & ?).
    exists r'. split; [by apply list_elem_of_further | done].
  - case_decide; [| done]. intros [= <-].
    exists r. split; [apply list_elem_of_here | done].
Qed.

(** Where no slot is named twice, the first and the last original of a
    record's slot are the record's own. *)
Lemma first_op_NoDup r l :
  NoDup (map ooi_target l) -> r ∈ l -> first_op (ooi_target r) l = Some (ooi_op r).
Proof.
  induction l as [|r0 l IH]; simpl; [by intros _ ?%elem_of_nil |].
  intros [Hn Hd]%NoDup_cons [->|Hr]%elem_of_cons.
  - by rewrite decide_True.
  - rewrite decide_False; [by apply IH |].
    intros Heq. apply Hn. rewrite Heq. by apply list_elem_of_fmap_2.
Qed.

Lemma last_op_NoDup r l :
  NoDup (map ooi_target l) -> r ∈ l -> last_op (ooi_target r) l = Some (ooi_op r).
Proof.
  induction l as [|r0 l IH]; simpl; [by intros _ ?%elem_of_nil |].
  intros [Hn Hd]%NoDup_cons [->|Hr]%elem_of_cons.
  - apply last_op_None in Hn as ->. by rewrite decide_True.
  - by rewrite IH.
Qed.


(** ** The relation [patched] *)

#[local] Instance same_flags_refl : Reflexive same_flags.
Proof. by intros s. Qed.

#[local] Instance same_flags_trans : Transitive same_flags.
Proof. intros s1 s2 s3 [? ?] [? ?]. split; congruence. Qed.

Lemma target_not_jit_slot r : ooi_namespace r <> torch_jit -> ooi_target r <> jit_slot.
Proof. intros Hns [= Heq _]. done. Qed.

Lemma holds_wrapper_of_mono s s' t o :
  holds_wrapper_of s t o ->
  attrs s' !! t = attrs s !! t ->
  closures s `prefix_of` closures s' ->
  holds_wrapper_of s' t o.
Proof.
  intros (k & c & Hk & Hc & Ho) Ha Hp. exists k, c. split; [congruence |].
  split; [| done]. by eapply prefix_lookup_Some.
Qed.

Lemma patched_quiet s s' :
  closures s `prefix_of` closures s' ->
  ORIGINAL_OPERATORS s' = ORIGINAL_OPERATORS s ->
  (forall t, t <> jit_slot -> attrs s' !! t = attrs s !! t) ->
  patched [] s s'.
Proof.
  intros Hc Hr Ha. split; simpl; try done.
  - by rewrite app_nil_r.
  - intros r Hr'. by apply elem_of_nil in Hr'.
  - auto.
Qed.

Lemma patched_single s s' r c :
  ooi_namespace r <> torch_jit ->
  attrs s !! ooi_target r = Some (ooi_op r) ->
  closure_original c = ooi_op r ->
  closures s' = closures s ++ [c] ->
  ORIGINAL_OPERATORS s' = ORIGINAL_OPERATORS s ++ [r] ->
  attrs s' = <[ooi_target r := Closure (length (closures s))]> (attrs s) ->
  patched [r] s s'.
Proof.
  intros Hns Ha Ho Hc Hr Ha'. split; simpl.
  - rewrite Hc. by apply prefix_app_r.
  - done.
  - by intros r' ->%list_elem_of_singleton.
  - intros t _. case_decide as Hd; [done |]. intros _.
    rewrite Ha'. by apply lookup_insert_ne.
  - intros t o. case_decide as Hd; [| done]. intros [= <-]. by subst t.
  - intros t o. case_decide as Hd; [| done]. intros [= <-]. subst t.
    exists (length (closures s)), c. rewrite Ha', Hc.
    split; [apply lookup_insert_eq |]. split; [| done].
    rewrite lookup_app_r by done. by rewrite Nat.sub_diag.
Qed.

Lemma patched_trans new1 new2 s s1 s' :
  patched new1 s s1 -> patched new2 s1 s' -> patched (new1 ++ new2) s s'.
Proof.
  intros H1 H2. split.
  - etrans; [apply H1 | apply H2].
  - rewrite (patched_registry _ _ _ H2), (patched_registry _ _ _ H1).
    by rewrite app_assoc.
  - intros r [Hr|Hr]%elem_of_app;
      [by eapply patched_namespaces in H1 | by eapply patched_namespaces in H2].
  - intros t Ht. rewrite last_op_app.
    destruct (last_op t new2) eqn:Hl2; [done |]. intros Hl1.
    rewrite (patched_untouched _ _ _ H2 t Ht Hl2).
    by apply (patched_untouched _ _ _ H1).
  - intros t o. rewrite first_op_app.
    destruct (first_op t new1) as [o1|] eqn:Hf1.
    + intros [= <-]. by apply (patched_first _ _ _ H1).
    + intros Hf2. rewrite <- (patched_untouched _ _ _ H1 t).
      * by apply (patched_first _ _ _ H2).
      * apply first_op_elem in Hf2 as (r & Hr & <- & _).
        apply target_not_jit_slot. by eapply patched_namespaces in H2.
      * by apply last_op_None, first_op_None.
  - intros t o. rewrite last_op_app.
    destruct (last_op t new2) as [o2|] eqn:Hl2.
    + intros [= <-]. by apply (patched_last _ _ _ H2).
    + intros Hl1. eapply holds_wrapper_of_mono.
      * by apply (patched_last _ _ _ H1).
      * apply (patched_untouched _ _ _ H2); [| done].
        apply last_op_elem in Hl1 as (r & Hr & <- & _).
        apply target_not_jit_slot. by eapply patched_namespaces in H1.
      * apply H2.
Qed.

(** What exists in a slot before exists after, and conversely. *)
Lemma patched_present new s s' t :
  patched new s s' -> t <> jit_slot -> present (attrs s') t = present (attrs s) t.
Proof.
  intros H Ht. unfold present. destruct (last_op t new) as [o|] eqn:Hl.
  - destruct (patched_last _ _ _ H t o Hl) as (k & c & -> & _).
    destruct (first_op t new) as [o1|] eqn:Hf.
    + by rewrite (patched_first _ _ _ H t o1 Hf).
    + apply first_op_None, last_op_None in Hf. congruence.
  - by rewrite (patched_untouched _ _ _ H t Ht Hl).
Qed.

(** ** One call of [patch_namespace_opname] *)

Lemma patch_namespace_opname_missing E ns info s :
  attrs s !! (ns, poi_name info) = None ->
  exists s', patch_namespace_opname E ns info s = (Return tt, s') /\
    attrs s' = attrs s /\ closures s' = closures s /\
    ORIGINAL_OPERATORS s' = ORIGINAL_OPERATORS s /\
    same_flags s s' /\ _ORIG_JIT_SCRIPT s' = _ORIG_JIT_SCRIPT s /\
    warnings_issued s' = warnings_issued s ++ [missing_warning (poi_name info)] /\
    accesses s' = accesses s ++ [Hasattr ns (poi_name info)].
Proof.
  intros H. eexists. split.
  - unfold patch_namespace_opname, hasattr, bind, log_access, modify, get, ret.
    simpl. rewrite H. simpl. reflexivity.
  - by simpl.
Qed.

Lemma patch_namespace_opname_writable E ns info s o :
  attrs s !! (ns, poi_name info) = Some o ->
  read_only E ns (poi_name info) = false ->
  exists s', patch_namespace_opname E ns info s = (Return tt, s') /\
    attrs s' = <[(ns, poi_name info) := Closure (length (closures s))]> (attrs s) /\
    closures s' = closures s ++ [wrap_operator_closure o info] /\
    ORIGINAL_OPERATORS s' = ORIGINAL_OPERATORS s ++
      [{| ooi_name := poi_name info; ooi_namespace := ns; ooi_op := o |}] /\
    same_flags s s' /\ _ORIG_JIT_SCRIPT s' = _ORIG_JIT_SCRIPT s /\
    warnings_issued s' = warnings_issued s.
Proof.
  intros H Hw. eexists. split.
  - unfold patch_namespace_opname, hasattr, getattr, setattr, wrap_operator,
      new_closure, bind, log_access, modify, get, ret.
    simpl. rewrite H. simpl. rewrite H, Hw. reflexivity.
  - by simpl.
Qed.

Lemma patch_namespace_opname_read_only E ns info s o :
  attrs s !! (ns, poi_name info) = Some o ->
  read_only E ns (poi_name info) = true ->
  exists s', patch_namespace_opname E ns info s =
               (Raise (AttributeError (poi_name info)), s') /\
    attrs s' = attrs s /\
    ORIGINAL_OPERATORS s' = ORIGINAL_OPERATORS s ++
      [{| ooi_name := poi_name info; ooi_namespace := ns; ooi_op := o |}] /\
    same_flags s s'.
Proof.
  intros H Hw. eexists. split.
  - unfold patch_namespace_opname, hasattr, getattr, setattr, wrap_operator,
      new_closure, bind, log_access, modify, get, ret, raise.
    simpl. rewrite H. simpl. rewrite H, Hw. reflexivity.
  - by simpl.
Qed.

Lemma patch_namespace_opname_keeps_flags E ns info :
  keeps same_flags (patch_namespace_opname E ns info).
Proof.
  intros s r s' H.
  destruct (attrs s !! (ns, poi_name info)) as [o|] eqn:Ha.
  - destruct (read_only E ns (poi_name info)) eqn:Hw.
    + destruct (patch_namespace_opname_read_only E ns info s o Ha Hw)
        as (s1 & Hs1 & _ & _ & Hf). congruence.
    + destruct (patch_namespace_opname_writable E ns info s o Ha Hw)
        as (s1 & Hs1 & _ & _ & _ & Hf & _). congruence.
  - destruct (patch_namespace_opname_missing E ns info s Ha)
      as (s1 & Hs1 & _ & _ & _ & Hf & _). congruence.
Qed.

Lemma patch_job_Return E j s s' :
  j.1 <> torch_jit ->
  patch_job E j s = (Return tt, s') ->
  exists new, patched new s s' /\
    map ooi_target new = List.filter (present (attrs s)) [job_target j].
Proof.
  destruct j as [ns info]. unfold patch_job, job_target, present. simpl.
  intros Hns H.
  destruct (attrs s !! (ns, poi_name info)) as [o|] eqn:Ha; simpl.
  - destruct (read_only E ns (poi_name info)) eqn:Hw.
    + destruct (patch_namespace_opname_read_only E ns info s o Ha Hw)
        as (s1 & Hs1 & _). congruence.
    + destruct (patch_namespace_opname_writable E ns info s o Ha Hw)
        as (s1 & Hs1 & Hat & Hc & Hr & _).
      assert (s1 = s') as -> by congruence.
      exists [{| ooi_name := poi_name info; ooi_namespace := ns; ooi_op := o |}].
      split; [| done].
      by apply (patched_single _ _ _ (wrap_operator_closure o info)).
  - destruct (patch_namespace_opname_missing E ns info s Ha)
      as (s1 & Hs1 & Hat & Hc & Hr & _).
    assert (s1 = s') as -> by congruence.
    exists []. split; [| done].
    apply patched_quiet; [by rewrite Hc | done | by rewrite Hat].
Qed.

Lemma job_target_not_jit_slot j : j.1 <> torch_jit -> job_target j <> jit_slot.
Proof. intros Hns [= Heq _]. done. Qed.

Lemma filter_present_patched new s s' (l : list (namespace * string)) :
  patched new s s' ->
  Forall (fun t => t <> jit_slot) l ->
  List.filter (present (attrs s')) l = List.filter (present (attrs s)) l.
Proof.
  intros H Hl. apply filter_ext_in. intros t Ht%list_elem_of_In.
  eapply patched_present; [done |]. by eapply Forall_forall in Hl.
Qed.

(** The loop over the calls of [patch_namespace_opname]: when it returns, it
    has appended one record for every slot of the list that exists. *)
Lemma patch_jobs_Return E jobs s s' :
  Forall (fun j => j.1 <> torch_jit) jobs ->
  for_each jobs (patch_job E) s = (Return tt, s') ->
  exists new, patched new s s' /\
    map ooi_target new = List.filter (present (attrs s)) (map job_target jobs).
Proof.
  intros Hjobs. revert s. induction Hjobs as [|j jobs Hj Hjobs IH]; intros s; simpl.
  - intros [= <-]. exists []. split; [by apply patched_quiet | done].
  - intros (u & s1 & H1 & H2)%bind_inv_Return. destruct u.
    apply patch_job_Return in H1 as (new1 & Hp1 & Hn1); [| done].
    apply IH in H2 as (new2 & Hp2 & Hn2).
    exists (new1 ++ new2). split; [by eapply patched_trans |].
    rewrite map_app, Hn1, Hn2. simpl.
    rewrite (filter_present_patched new1 s s1); [by destruct (present _ _) | done |].
    apply Forall_forall. intros t (j' & -> & Hj')%list_elem_of_fmap.
    apply job_target_not_jit_slot. by eapply Forall_forall in Hjobs.
Qed.

(** ** The nested loops are one loop over [patch_jobs] *)

Lemma patch_if_not_None_jobs E ns spec s :
  patch_if_not_None E ns spec s = for_each (jobs_of_option ns spec) (patch_job E) s.
Proof.
  destruct spec as [ps|]; simpl; [| done].
  unfold patch_namespace_by_patchspec, jobs_of_patchspec.
  by rewrite for_each_map.
Qed.

Lemma patch_op_meta_class_jobs E m s :
  patch_op_meta_class E m s = for_each (jobs_of_meta m) (patch_job E) s.
Proof.
  unfold patch_op_meta_class, jobs_of_meta. rewrite for_each_app.
  apply bind_ext; [apply patch_if_not_None_jobs |]. intros _ s0. cbv beta.
  rewrite for_each_app.
  apply bind_ext; [apply patch_if_not_None_jobs |]. intros _ s1.
  apply patch_if_not_None_jobs.
Qed.

Lemma registry_loop_jobs E registry s :
  for_each registry (patch_op_meta_class E) s =
  for_each (flat_map jobs_of_meta registry) (patch_job E) s.
Proof.
  revert s. induction registry as [|m registry IH]; intros s; simpl; [done |].
  rewrite for_each_app.
  apply bind_ext; [apply patch_op_meta_class_jobs | intros _ s0; apply IH].
Qed.

Lemma patch_torch_operators_phases E s :
  patch_torch_operators E s = (jit_phase E ;; ops_phase E) s.
Proof.
  unfold patch_torch_operators, jit_phase, ops_phase, patch_body, patch_jobs.
  rewrite !bind_assoc. apply bind_ext; [done |]. intros jit_wrapped s0.
  apply bind_ext; [done |]. intros _ s1.
  apply bind_ext; [done |]. intros ops_wrapped s2.
  destruct ops_wrapped; [done |].
  apply bind_ext; [done |]. intros _ s3.
  symmetry. etrans.
  { apply bind_ext; [intros s4; apply for_each_app | done]. }
  rewrite bind_assoc. symmetry.
  apply bind_ext; [apply registry_loop_jobs |]. intros _ s5. cbv beta.
  simpl for_each. rewrite bind_assoc.
  apply bind_ext; [done |]. intros _ s6. rewrite bind_ret_l.
  unfold patch_module_call. rewrite !bind_assoc.
  apply bind_ext; [done |]. intros call0 s7. rewrite !bind_assoc.
  apply bind_ext; [done |]. intros _ s8. rewrite !bind_assoc.
  apply bind_ext; [done |]. intros call1 s9. rewrite !bind_assoc.
  apply bind_ext; [done |]. intros w s10. done.
Qed.

Lemma patch_jobs_namespaces E : Forall (fun j => j.1 <> torch_jit) (patch_jobs E).
Proof.
  unfold patch_jobs. apply Forall_app. split; [| by repeat constructor].
  induction (PT_OPERATOR_METATYPES E) as [|m registry IH]; simpl; [constructor |].
  apply Forall_app. split; [| done]. unfold jobs_of_meta, jobs_of_option.
  rewrite !Forall_app.
  repeat split; (destruct (_ m) as [ps|]; [| constructor]);
    unfold jobs_of_patchspec; apply Forall_forall;
    by intros j (n & -> & _)%list_elem_of_fmap.
Qed.

(** ** The phases of [patch_torch_operators] *)

Ltac run_statement :=
  unfold patch_torch_jit_script, patch_module_call, wrap_module_call,
    wrap_operator, new_closure, ignore_scope, warnings_warn, getattr, hasattr,
    setattr, log_access, bind, get, modify, ret, raise; simpl.

Lemma jit_phase_Return E s s1 :
  jit_phase E s = (Return tt, s1) ->
  _JIT_ALREADY_WRAPPED s1 = true /\
  _OPERATORS_ALREADY_WRAPPED s1 = _OPERATORS_ALREADY_WRAPPED s /\
  patched [] s s1.
Proof.
  unfold jit_phase. run_statement.
  destruct (_JIT_ALREADY_WRAPPED s) eqn:Hj; simpl.
  - intros [= <-]. split; [done | split; [done | by apply patched_quiet]].
  - destruct (attrs s !! (torch_jit, "script")) as [o|]; simpl; [| done].
    destruct (read_only E torch_jit "script"); simpl; [done |].
    intros [= <-]. simpl. split; [done | split; [done |]].
    apply patched_quiet; simpl; try done.
    intros t Ht. by apply lookup_insert_ne.
Qed.

Lemma jit_phase_Raise E s e s1 :
  jit_phase E s = (Raise e, s1) ->
  _JIT_ALREADY_WRAPPED s1 = false /\
  _OPERATORS_ALREADY_WRAPPED s1 = _OPERATORS_ALREADY_WRAPPED s.
Proof.
  unfold jit_phase. run_statement.
  destruct (_JIT_ALREADY_WRAPPED s) eqn:Hj; simpl; [done |].
  destruct (attrs s !! (torch_jit, "script")) as [o|]; simpl.
  - destruct (read_only E torch_jit "script"); simpl; [| done].
    by intros [= <- <-].
  - by intros [= <- <-].
Qed.

Lemma patch_module_call_Return E s s' :
  patch_module_call E s = (Return tt, s') ->
  exists o, attrs s !! (torch_nn_Module, "__call__") = Some o /\
    patched [{| ooi_name := "__call__"; ooi_namespace := torch_nn_Module;
                ooi_op := o |}] s s'.
Proof.
  run_statement.
  destruct (attrs s !! (torch_nn_Module, "__call__")) as [o|] eqn:Ha; simpl; [| done].
  rewrite Ha. simpl.
  destruct (read_only E torch_nn_Module "__call__"); simpl; [done |].
  intros [= <-]. exists o. split; [done |].
  by apply (patched_single _ _ _ (wrap_module_call_closure o)).
Qed.

Lemma patch_module_call_keeps_flags E : keeps same_flags (patch_module_call E).
Proof.
  intros s r s'. run_statement.
  destruct (attrs s !! (torch_nn_Module, "__call__")) as [o|] eqn:Ha; simpl.
  - rewrite Ha. simpl.
    destruct (read_only E torch_nn_Module "__call__"); simpl; by intros [= <- <-].
  - by intros [= <- <-].
Qed.

Lemma ignore_scope_keeps_flags cls : keeps same_flags (ignore_scope cls).
Proof. intros s r s'. run_statement. by intros [= <- <-]. Qed.

Lemma patch_body_keeps_flags E : keeps same_flags (patch_body E).
Proof.
  unfold patch_body.
  apply keeps_bind; [apply _ | |].
  { apply keeps_for_each; [apply _ | apply _ |].
    intros [ns info]. apply patch_namespace_opname_keeps_flags. }
  intros _. apply keeps_bind; [apply _ | apply patch_module_call_keeps_flags |].
  intros _. apply keeps_bind; [apply _ | apply ignore_scope_keeps_flags |].
  intros _. apply ignore_scope_keeps_flags.
Qed.

Lemma patch_targets_not_jit_slot E : Forall (fun t => t <> jit_slot) (patch_targets E).
Proof.
  unfold patch_targets. apply Forall_app. split; [| by repeat constructor].
  apply Forall_forall. intros t (j & -> & Hj)%list_elem_of_fmap.
  apply job_target_not_jit_slot.
  by eapply Forall_forall in Hj; [| apply patch_jobs_namespaces].
Qed.

(** The body, when it returns, has appended one record for every slot of
    [patch_targets] that exists, the record of [Module.__call__] last. *)
Lemma patch_body_Return E s s' :
  patch_body E s = (Return tt, s') ->
  exists new, patched new s s' /\ new <> [] /\
    map ooi_target new = List.filter (present (attrs s)) (patch_targets E).
Proof.
  unfold patch_body.
  intros ([] & s1 & H1 & H2)%bind_inv_Return.
  apply bind_inv_Return in H2 as ([] & s2 & H2 & H3).
  apply patch_jobs_Return in H1 as (new1 & Hp1 & Hn1); [| apply patch_jobs_namespaces].
  apply patch_module_call_Return in H2 as (o & Ho & Hp2).
  assert (patched [] s2 s') as Hp3.
  { revert H3. unfold ignore_scope. run_statement. intros [= <-].
    by apply patched_quiet. }
  eexists. split; [| split].
  - eapply patched_trans; [| exact Hp3].
    eapply patched_trans; [exact Hp1 | exact Hp2].
  - by destruct new1.
  - rewrite app_nil_r, map_app, Hn1. unfold patch_targets.
    rewrite List.filter_app. f_equal. simpl.
    assert (present (attrs s) (torch_nn_Module, "__call__") = true) as ->; [| done].
    rewrite <- (patched_present new1 s s1) by done.
    unfold present. rewrite Ho. by apply bool_decide_eq_true_2.
Qed.

Lemma ops_phase_unfold E s :
  _OPERATORS_ALREADY_WRAPPED s = false ->
  ops_phase E s = patch_body E (with_OPERATORS_ALREADY_WRAPPED true s).
Proof. unfold ops_phase, bind, get, modify. simpl. by intros ->. Qed.

Lemma ops_phase_noop E s :
  _OPERATORS_ALREADY_WRAPPED s = true -> ops_phase E s = (Return tt, s).
Proof. unfold ops_phase, bind, get, modify. simpl. by intros ->. Qed.

(** ** [patch_torch_operators] and [unpatch_torch_operators] as a whole *)

Lemma patch_torch_operators_noop E s :
  _JIT_ALREADY_WRAPPED s = true -> _OPERATORS_ALREADY_WRAPPED s = true ->
  patch_torch_operators E s = (Return tt, s).
Proof.
  intros Hj Ho. unfold patch_torch_operators, bind, get. simpl.
  rewrite Hj. simpl. by rewrite Ho.
Qed.

Lemma patch_torch_operators_Return E s s' :
  patch_torch_operators E s = (Return tt, s') ->
  _JIT_ALREADY_WRAPPED s' = true /\ _OPERATORS_ALREADY_WRAPPED s' = true.
Proof.
  rewrite patch_torch_operators_phases.
  intros ([] & s1 & H1 & H2)%bind_inv_Return.
  apply jit_phase_Return in H1 as (Hj & Ho & _).
  destruct (_OPERATORS_ALREADY_WRAPPED s1) eqn:Ho1.
  - rewrite ops_phase_noop in H2 by done. by injection H2 as <-.
  - rewrite ops_phase_unfold in H2 by done.
    apply patch_body_keeps_flags in H2 as [Hj2 Ho2]. simpl in *.
    split; congruence.
Qed.

(** A call that starts with the flag unset and returns has appended one
    record for every slot of [patch_targets] that exists. *)
Lemma patch_torch_operators_session E s s' :
  _OPERATORS_ALREADY_WRAPPED s = false ->
  patch_torch_operators E s = (Return tt, s') ->
  exists new, patched new s s' /\ new <> [] /\
    map ooi_target new = List.filter (present (attrs s)) (patch_targets E).
Proof.
  intros Ho. rewrite patch_torch_operators_phases.
  intros ([] & s1 & H1 & H2)%bind_inv_Return.
  apply jit_phase_Return in H1 as (Hj & Ho1 & Hp1).
  rewrite ops_phase_unfold in H2 by congruence.
  apply patch_body_Return in H2 as (new & Hp2 & Hne & Hn). simpl in Hn.
  exists new. split; [| split; [done |]].
  - change new with ([] ++ new). eapply patched_trans; [exact Hp1 |].
    destruct Hp2 as [? ? ? ? ? ?]. by split.
  - rewrite Hn. eapply filter_present_patched; [exact Hp1 |].
    apply patch_targets_not_jit_slot.
Qed.

Lemma patch_torch_operators_Raise E s e s' :
  patch_torch_operators E s = (Raise e, s') ->
  _JIT_ALREADY_WRAPPED s' = true ->
  _OPERATORS_ALREADY_WRAPPED s' = true.
Proof.
  rewrite patch_torch_operators_phases.
  intros [(a & s1 & H1 & H2)|(e' & H1 & _)]%bind_inv Hj'.
  - destruct (_OPERATORS_ALREADY_WRAPPED s1) eqn:Ho1.
    + by rewrite ops_phase_noop in H2.
    + rewrite ops_phase_unfold in H2 by done.
      by apply patch_body_keeps_flags in H2 as [_ ->].
  - apply jit_phase_Raise in H1 as [? _]. congruence.
Qed.

Lemma setattr_Return E ns name v s s' :
  setattr E ns name v s = (Return tt, s') ->
  attrs s' = <[(ns, name) := v]> (attrs s) /\
  closures s' = closures s /\
  ORIGINAL_OPERATORS s' = ORIGINAL_OPERATORS s /\
  _ORIG_JIT_SCRIPT s' = _ORIG_JIT_SCRIPT s /\
  same_flags s s'.
Proof.
  run_statement. destruct (read_only E ns name); simpl; [done |].
  by intros [= <-].
Qed.

(** The loop of [unpatch_torch_operators]: a slot ends with the original of
    the last record that names it. *)
Lemma restore_Return E l s s' :
  for_each l (fun orig_op_info =>
    setattr E (ooi_namespace orig_op_info) (ooi_name orig_op_info)
      (ooi_op orig_op_info)) s = (Return tt, s') ->
  closures s' = closures s /\
  ORIGINAL_OPERATORS s' = ORIGINAL_OPERATORS s /\
  _ORIG_JIT_SCRIPT s' = _ORIG_JIT_SCRIPT s /\
  same_flags s s' /\
  forall t, attrs s' !! t =
            match last_op t l with Some o => Some o | None => attrs s !! t end.
Proof.
  revert s. induction l as [|r l IH]; intros s; simpl.
  - by intros [= <-].
  - intros ([] & s1 & H1 & H2)%bind_inv_Return.
    apply setattr_Return in H1 as (Ha & Hc & Hr & Hg & Hf).
    apply IH in H2 as (Hc' & Hr' & Hg' & Hf' & Ha').
    split; [congruence |]. split; [congruence |]. split; [congruence |].
    split; [by etrans |].
    intros t. rewrite Ha'. destruct (last_op t l); [done |].
    rewrite Ha. unfold ooi_target. case_decide as Hd.
    + rewrite <- Hd. apply lookup_insert_eq.
    + by apply lookup_insert_ne.
Qed.

Lemma unpatch_torch_operators_noop E s :
  _OPERATORS_ALREADY_WRAPPED s = false ->
  unpatch_torch_operators E s = (Return tt, s).
Proof.
  intros Ho. unfold unpatch_torch_operators, bind, get. simpl. by rewrite Ho.
Qed.

Lemma unpatch_torch_operators_Return E s s' :
  _OPERATORS_ALREADY_WRAPPED s = true ->
  unpatch_torch_operators E s = (Return tt, s') ->
  _OPERATORS_ALREADY_WRAPPED s' = false /\
  _JIT_ALREADY_WRAPPED s' = _JIT_ALREADY_WRAPPED s /\
  closures s' = closures s /\
  ORIGINAL_OPERATORS s' = ORIGINAL_OPERATORS s /\
  _ORIG_JIT_SCRIPT s' = _ORIG_JIT_SCRIPT s /\
  forall t, attrs s' !! t =
            match last_op t (ORIGINAL_OPERATORS s) with
            | Some o => Some o
            | None => attrs s !! t
            end.
Proof.
  intros Ho. unfold unpatch_torch_operators, bind, get, modify. simpl.
  rewrite Ho. simpl.
  intros (Hc & Hr & Hg & [Hj Hf] & Ha)%restore_Return. simpl in *.
  done.
Qed.

(** ** The invariant of the life cycle *)

Lemma existing_targets_not_jit_slot E fw t :
  t ∈ existing_targets E fw -> t <> jit_slot.
Proof.
  unfold existing_targets. intros [Ht _]%list_elem_of_In%filter_In.
  apply list_elem_of_In in Ht.
  by eapply Forall_forall in Ht; [| apply patch_targets_not_jit_slot].
Qed.

Lemma lifecycle_invariant_initial E fw : lifecycle_invariant E fw (initial_state fw).
Proof. split; simpl; try done. by intros r ?%elem_of_nil. Qed.

Lemma lifecycle_invariant_patch E fw s s' :
  NoDup (existing_targets E fw) ->
  lifecycle_invariant E fw s ->
  patch_torch_operators E s = (Return tt, s') ->
  lifecycle_invariant E fw s'.
Proof.
  intros Hnd Hinv H.
  destruct (_OPERATORS_ALREADY_WRAPPED s) eqn:Ho.
  { rewrite patch_torch_operators_noop in H; [| by apply Hinv | done].
    by injection H as <-. }
  destruct (patch_torch_operators_Return _ _ _ H) as [Hj' Ho'].
  destruct (patch_torch_operators_session _ _ _ Ho H) as (new & Hp & Hne & Hn).
  assert (map ooi_target new = existing_targets E fw) as Hnew.
  { rewrite Hn. apply filter_ext_in. intros t Ht%list_elem_of_In.
    unfold present. rewrite (inv_unpatched _ _ _ Hinv Ho); [done |].
    by eapply Forall_forall in Ht; [| apply patch_targets_not_jit_slot]. }
  assert (forall r, r ∈ new -> (Builtin <$> fw) !! ooi_target r = Some (ooi_op r)) as Hops.
  { intros r Hr. rewrite <- (inv_unpatched _ _ _ Hinv Ho).
    - apply (patched_first _ _ _ Hp). apply first_op_NoDup; [by rewrite Hnew | done].
    - apply target_not_jit_slot. by eapply patched_namespaces in Hp. }
  split; rewrite ?Ho'; try done.
  - rewrite (patched_registry _ _ _ Hp). intros r [Hr|Hr]%elem_of_app.
    + by apply Hinv.
    + split; [| by apply Hops]. rewrite <- Hnew. by apply list_elem_of_fmap_2.
  - intros _. rewrite (patched_registry _ _ _ Hp). by destruct (ORIGINAL_OPERATORS s), new.
  - intros _ t Ht. rewrite (patched_registry _ _ _ Hp), map_app, elem_of_app.
    right. by rewrite Hnew.
  - intros _ t o Ht Hfw. rewrite <- Hnew in Ht.
    apply list_elem_of_fmap in Ht as (r & -> & Hr).
    rewrite (Hops r Hr) in Hfw. injection Hfw as <-.
    apply (patched_last _ _ _ Hp). apply last_op_NoDup; [by rewrite Hnew | done].
  - intros _ t Ht Hnt. rewrite (patched_untouched _ _ _ Hp t Ht).
    + by apply (inv_unpatched _ _ _ Hinv Ho).
    + apply last_op_None. by rewrite Hnew.
Qed.

Lemma lifecycle_invariant_unpatch E fw s s' :
  lifecycle_invariant E fw s ->
  unpatch_torch_operators E s = (Return tt, s') ->
  lifecycle_invariant E fw s'.
Proof.
  intros Hinv H.
  destruct (_OPERATORS_ALREADY_WRAPPED s) eqn:Ho.
  2:{ rewrite unpatch_torch_operators_noop in H by done. by injection H as <-. }
  apply unpatch_torch_operators_Return in H as (Ho' & Hj' & Hc' & Hr' & _ & Ha'); [| done].
  split; rewrite ?Ho', ?Hr'; try done.
  - apply Hinv.
  - intros _ t Ht. rewrite Ha'.
    destruct (last_op t (ORIGINAL_OPERATORS s)) as [o|] eqn:Hl.
    + apply last_op_elem in Hl as (r & Hr & <- & <-). symmetry. by apply Hinv.
    + apply last_op_None in Hl.
      apply (inv_others _ _ _ Hinv Ho t Ht). intros Hex. apply Hl.
      by apply (inv_recorded _ _ _ Hinv Ho).
Qed.


Lemma lifecycle_invariant_consistent E fw s :
  lifecycle_invariant E fw s -> registry_consistent s.
Proof.
  intros Hinv. unfold registry_consistent. split.
  - intros Ho. split; [by apply Hinv |]. intros r Hr.
    destruct (inv_records _ _ _ Hinv r Hr) as [Ht Hfw].
    by apply (inv_wrapped _ _ _ Hinv Ho).
  - intros [Hne Hall].
    destruct (_OPERATORS_ALREADY_WRAPPED s) eqn:Ho; [done |]. exfalso.
    destruct (ORIGINAL_OPERATORS s) as [|r l] eqn:Hl; [done |].
    assert (r ∈ ORIGINAL_OPERATORS s) as Hr by (rewrite Hl; apply list_elem_of_here).
    destruct (inv_records _ _ _ Hinv r Hr) as [Ht Hfw].
    rewrite <- Hl in Hall.
    destruct (Hall r Hr) as (k & c & Hk & _).
    rewrite (inv_unpatched _ _ _ Hinv Ho) in Hk
      by (by eapply existing_targets_not_jit_slot).
    rewrite lookup_fmap in Hk. by destruct (fw !! ooi_target r).
Qed.

(** * The registry and the flag *)




(** * Patching twice *)

(** C2.  When a call of [patch_torch_operators] has returned, a second call
    returns at once and leaves the whole state as it is (the namespaces, the
    registry, and the trace of attribute accesses, so nothing is read,
    written or appended), and the two calls in a row end in the state the
    first one ended in. *)
Theorem patch_twice_is_patch_once E s s1 :
  patch_torch_operators E s = (Return tt, s1) ->
  patch_torch_operators E s1 = (Return tt, s1) /\
  (patch_torch_operators E ;; patch_torch_operators E) s = (Return tt, s1).
Proof.
  intros H. destruct (patch_torch_operators_Return _ _ _ H) as [Hj Ho].
  assert (patch_torch_operators E s1 = (Return tt, s1)) as H2
    by (by apply patch_torch_operators_noop).
  split; [done |]. by rewrite (bind_Return _ _ _ _ _ H).
Qed.

Lemma patch_twice_is_patch_once_witness :
  patch_torch_operators plain_env small_start =
    (Return tt, after_calls plain_env [patchAll]) /\
  patch_torch_operators plain_env (after_calls plain_env [patchAll]) =
    (Return tt, after_calls plain_env [patchAll]) /\
  (patch_torch_operators plain_env ;; patch_torch_operators plain_env) small_start =
    (Return tt, after_calls plain_env [patchAll]).
Proof.
  assert (patch_torch_operators plain_env small_start =
          (Return tt, after_calls plain_env [patchAll])) as H
    by (vm_compute; reflexivity).
  split; [exact H |].
  exact (patch_twice_is_patch_once plain_env small_start _ H).
Defined.

(** * The round trip *)





(** * A call that raises *)

(** C4.  The flag is set before the first operator is patched: when a call of
    [patch_torch_operators] raises after [torch.jit.script] has been dealt
    with (the JIT flag is set in the state it leaves), that state has the
    operator flag set, and every later call, however many, returns at once
    and leaves the state as it is, so what was not patched stays unpatched. *)
Theorem patch_raise_leaves_flag_set E s e s' :
  patch_torch_operators E s = (Raise e, s') ->
  _JIT_ALREADY_WRAPPED s' = true ->
  _OPERATORS_ALREADY_WRAPPED s' = true /\
  forall n, patch_repeatedly E n s' = (Return tt, s').
Proof.
  intros H Hj. assert (_OPERATORS_ALREADY_WRAPPED s' = true) as Ho
    by (by eapply patch_torch_operators_Raise).
  split; [done |]. unfold patch_repeatedly.
  induction n as [|n IH]; simpl; [done |].
  by rewrite (bind_Return _ _ _ _ _ (patch_torch_operators_noop E s' Hj Ho)).
Qed.

Lemma patch_raise_leaves_flag_set_witness :
  patch_torch_operators frozen_env small_start =
    (Raise (AttributeError "relu"), (patch_torch_operators frozen_env small_start).2) /\
  attrs (patch_torch_operators frozen_env small_start).2 !! (F, "relu") =
    Some (Closure 0) /\
  attrs (patch_torch_operators frozen_env small_start).2 !! (torch, "relu") =
    Some (Builtin 2) /\
  attrs (patch_torch_operators frozen_env small_start).2 !! (torch_nn_Module, "__call__") =
    Some (Builtin 4) /\
  _OPERATORS_ALREADY_WRAPPED (patch_torch_operators frozen_env small_start).2 = true /\
  forall n, patch_repeatedly frozen_env n (patch_torch_operators frozen_env small_start).2 =
            (Return tt, (patch_torch_operators frozen_env small_start).2).
Proof.
  assert (patch_torch_operators frozen_env small_start =
          (Raise (AttributeError "relu"),
           (patch_torch_operators frozen_env small_start).2)) as H
    by (vm_compute; reflexivity).
  split; [exact H |].
  split; [vm_compute; reflexivity |].
  split; [vm_compute; reflexivity |].
  split; [vm_compute; reflexivity |].
  apply (patch_raise_leaves_flag_set frozen_env small_start _ _ H).
  vm_compute. reflexivity.
Defined.

(** * The shim around [torch.jit.script] *)

(** C10.  In a patch session (the operator flag is set), when the original
    compilation entry point raises, [torch_jit_script_wrapper] raises the same
    exception and leaves exactly the state that [unpatch_torch_operators]
    produced: the flag is unset, no function object was created, no record
    was appended, and every recorded slot holds the original of its last
    record.  Patching is not applied again. *)
Theorem jit_wrapper_raise_leaves_unpatched E args s s1 orig e :
  _OPERATORS_ALREADY_WRAPPED s = true ->
  _ORIG_JIT_SCRIPT s = Some orig ->
  call_builtin E orig args = Raise e ->
  unpatch_torch_operators E s = (Return tt, s1) ->
  torch_jit_script_wrapper E args s = (Raise e, s1) /\
  _OPERATORS_ALREADY_WRAPPED s1 = false /\
  closures s1 = closures s /\
  ORIGINAL_OPERATORS s1 = ORIGINAL_OPERATORS s /\
  forall t, attrs s1 !! t =
            match last_op t (ORIGINAL_OPERATORS s) with
            | Some o => Some o
            | None => attrs s !! t
            end.
Proof.
  intros Ho Horig Hcall Hun.
  destruct (unpatch_torch_operators_Return _ _ _ Ho Hun)
    as (Ho1 & _ & Hc & Hr & Hg & Ha).
  split; [| done].
  unfold torch_jit_script_wrapper. rewrite (bind_Return _ _ _ _ _ Hun).
  apply bind_Raise. unfold call_ORIG_JIT_SCRIPT, bind, get. simpl.
  by rewrite Hg, Horig, Hcall.
Qed.

Lemma jit_wrapper_raise_leaves_unpatched_witness :
  torch_jit_script_wrapper failing_jit_env [] (after_calls failing_jit_env [patchAll]) =
    (Raise (RuntimeError "cannot compile"),
     after_calls failing_jit_env [patchAll; unpatchAll]) /\
  _OPERATORS_ALREADY_WRAPPED (after_calls failing_jit_env [patchAll; unpatchAll]) = false /\
  attrs (after_calls failing_jit_env [patchAll; unpatchAll]) !! (F, "relu") =
    Some (Builtin 1).
Proof.
  destruct (jit_wrapper_raise_leaves_unpatched failing_jit_env []
              (after_calls failing_jit_env [patchAll])
              (after_calls failing_jit_env [patchAll; unpatchAll])
              (Builtin 5) (RuntimeError "cannot compile"))
    as (Hw & Ho & _ & _ & Ha);
    [vm_compute; reflexivity | vm_compute; reflexivity | vm_compute; reflexivity
    | vm_compute; reflexivity |].
  split; [exact Hw |]. split; [exact Ho |].
  rewrite Ha. vm_compute. reflexivity.
Defined.

(** * Names missing from a namespace *)

(** The batch over the names of a patch spec, when no slot rejects
    assignment: it returns; it loses no function object, record or warning;
    it leaves alone the slots it does not name; a name that is missing stays
    missing and is warned about; a name that exists ends up holding a wrapper
    made by [wrap_operator] for that name, whose original is recorded. *)
Lemma patch_names_total E ns c names s :
  (forall n, n ∈ names -> read_only E ns n = false) ->
  exists s',
    for_each names (fun op_name =>
      patch_namespace_opname E ns
        {| poi_name := op_name; poi_custom_trace_fn := c |}) s = (Return tt, s') /\
    closures s `prefix_of` closures s' /\
    ORIGINAL_OPERATORS s `prefix_of` ORIGINAL_OPERATORS s' /\
    warnings_issued s `prefix_of` warnings_issued s' /\
    (forall t, t ∉ map (pair ns) names -> attrs s' !! t = attrs s !! t) /\
    (forall n, n ∈ names ->
       match attrs s !! (ns, n) with
       | None => attrs s' !! (ns, n) = None /\ missing_warning n ∈ warnings_issued s'
       | Some _ =>
           exists k o,
             attrs s' !! (ns, n) = Some (Closure k) /\
             closures s' !! k =
               Some (wrap_operator_closure o
                       {| poi_name := n; poi_custom_trace_fn := c |}) /\
             {| ooi_name := n; ooi_namespace := ns; ooi_op := o |}
               ∈ ORIGINAL_OPERATORS s'
       end).
Proof.
  revert s. induction names as [|n0 names IH]; intros s Hw; simpl.
  - exists s. repeat split; try done. by intros n ?%elem_of_nil.
  - assert (read_only E ns n0 = false) as Hw0 by (apply Hw, list_elem_of_here).
    assert (exists s1,
      patch_namespace_opname E ns {| poi_name := n0; poi_custom_trace_fn := c |} s =
        (Return tt, s1) /\
      closures s `prefix_of` closures s1 /\
      ORIGINAL_OPERATORS s `prefix_of` ORIGINAL_OPERATORS s1 /\
      warnings_issued s `prefix_of` warnings_issued s1 /\
      (forall t, t <> (ns, n0) -> attrs s1 !! t = attrs s !! t) /\
      match attrs s !! (ns, n0) with
      | None => attrs s1 !! (ns, n0) = None /\ missing_warning n0 ∈ warnings_issued s1
      | Some _ =>
          exists k o,
            attrs s1 !! (ns, n0) = Some (Closure k) /\
            closures s1 !! k =
              Some (wrap_operator_closure o
                      {| poi_name := n0; poi_custom_trace_fn := c |}) /\
            {| ooi_name := n0; ooi_namespace := ns; ooi_op := o |}
              ∈ ORIGINAL_OPERATORS s1
      end) as (s1 & Hs1 & Hc1 & Hr1 & Hwarn1 & Hother1 & Hn0).
    { destruct (attrs s !! (ns, n0)) as [o|] eqn:Ha.
      - destruct (patch_namespace_opname_writable E ns
                    {| poi_name := n0; poi_custom_trace_fn := c |} s o Ha Hw0)
          as (s1 & Hs1 & Hat & Hc & Hr & _ & _ & Hwarn). simpl in *.
        exists s1. split; [done |]. rewrite Hat, Hc, Hr, Hwarn.
        split; [by apply prefix_app_r |]. split; [by apply prefix_app_r |].
        split; [done |]. split; [by intros t Ht; apply lookup_insert_ne |].
        exists (length (closures s)), o. split; [apply lookup_insert_eq |].
        split; [| apply elem_of_app; right; apply list_elem_of_here].
        rewrite lookup_app_r by done. by rewrite Nat.sub_diag.
      - destruct (patch_namespace_opname_missing E ns
                    {| poi_name := n0; poi_custom_trace_fn := c |} s Ha)
          as (s1 & Hs1 & Hat & Hc & Hr & _ & _ & Hwarn & _). simpl in *.
        exists s1. split; [done |]. rewrite Hat, Hc, Hr, Hwarn.
        split; [done |]. split; [done |]. split; [by apply prefix_app_r |].
        split; [done |]. split; [done |].
        apply elem_of_app; right; apply list_elem_of_here. }
    destruct (IH s1) as (s' & Hs' & Hc' & Hr' & Hwarn' & Hother' & Hnames').
    { intros n Hn. apply Hw. by apply list_elem_of_further. }
    exists s'. split; [by rewrite (bind_Return _ _ _ _ _ Hs1) |].
    split; [by etrans |]. split; [by etrans |]. split; [by etrans |].
    split.
    { intros t [Ht0 Ht]%not_elem_of_cons. rewrite Hother' by done. by apply Hother1. }
    intros n Hn. destruct (decide (n ∈ names)) as [Hin|Hout].
    + specialize (Hnames' n Hin).
      destruct (decide (n = n0)) as [->|Hne].
      * destruct (attrs s !! (ns, n0)).
        -- destruct Hn0 as (k0 & o0 & Hk0 & _). by rewrite Hk0 in Hnames'.
        -- destruct Hn0 as [Hnone _]. by rewrite Hnone in Hnames'.
      * rewrite Hother1 in Hnames' by congruence. done.
    + apply elem_of_cons in Hn as [->|Hn]; [| done].
      assert (attrs s' !! (ns, n0) = attrs s1 !! (ns, n0)) as Heq.
      { apply Hother'. intros (n' & [= <-] & Hn')%list_elem_of_fmap. done. }
      destruct (attrs s !! (ns, n0)).
      * destruct Hn0 as (k0 & o0 & Hk0 & Hcl0 & Hrec0). exists k0, o0.
        split; [congruence |]. split; [by eapply prefix_lookup_Some |].
        by eapply elem_of_prefix.
      * destruct Hn0 as [Hnone Hwarned]. split; [congruence |].
        by eapply elem_of_prefix.
Qed.

(** C9.  When the namespace has no attribute of the name, one call of
    [patch_namespace_opname] returns having issued the warning and changed
    neither the namespace nor the registry nor the function objects.  And in
    a batch over the names of a patch spec (no slot of which rejects
    assignment), a missing name does not stop the batch: it returns, the
    name is still missing and warned about, and every name of the batch that
    exists holds a wrapper for that name whose original is recorded. *)
Theorem missing_name_is_skipped E ns ps c missing s :
  missing ∈ underlying_function_names ps ->
  attrs s !! (ns, missing) = None ->
  (forall n, n ∈ underlying_function_names ps -> read_only E ns n = false) ->
  (exists s1,
     patch_namespace_opname E ns
       {| poi_name := missing; poi_custom_trace_fn := c |} s = (Return tt, s1) /\
     attrs s1 = attrs s /\
     ORIGINAL_OPERATORS s1 = ORIGINAL_OPERATORS s /\
     closures s1 = closures s /\
     warnings_issued s1 = warnings_issued s ++ [missing_warning missing]) /\
  (exists s',
     patch_namespace_by_patchspec E ns ps s = (Return tt, s') /\
     attrs s' !! (ns, missing) = None /\
     missing_warning missing ∈ warnings_issued s' /\
     forall n, n ∈ underlying_function_names ps -> is_Some (attrs s !! (ns, n)) ->
       exists k o,
         attrs s' !! (ns, n) = Some (Closure k) /\
         closures s' !! k =
           Some (wrap_operator_closure o
                   {| poi_name := n; poi_custom_trace_fn := custom_trace_fn ps |}) /\
         {| ooi_name := n; ooi_namespace := ns; ooi_op := o |} ∈ ORIGINAL_OPERATORS s').
Proof.
  intros Hin Hmiss Hw. split.
  - destruct (patch_namespace_opname_missing E ns
                {| poi_name := missing; poi_custom_trace_fn := c |} s Hmiss)
      as (s1 & Hs1 & Hat & Hc & Hr & _ & _ & Hwarn & _).
    by exists s1.
  - destruct (patch_names_total E ns (custom_trace_fn ps)
                (underlying_function_names ps) s Hw)
      as (s' & Hs' & _ & _ & _ & _ & Hnames).
    exists s'. split; [done |].
    pose proof (Hnames missing Hin) as Hm. rewrite Hmiss in Hm.
    destruct Hm as [Hnone Hwarned]. split; [done |]. split; [done |].
    intros n Hn [o Ho]. specialize (Hnames n Hn). by rewrite Ho in Hnames.
Qed.

Lemma missing_name_is_skipped_witness :
  "gelu" ∈ underlying_function_names relu_gelu_spec /\
  attrs small_start !! (F, "gelu") = None /\
  exists s',
    patch_namespace_by_patchspec plain_env F relu_gelu_spec small_start =
      (Return tt, s') /\
    attrs s' !! (F, "gelu") = None /\
    exists k o,
      attrs s' !! (F, "relu") = Some (Closure k) /\
      closures s' !! k =
        Some (wrap_operator_closure o
                {| poi_name := "relu"; poi_custom_trace_fn := None |}).
Proof.
  assert ("gelu" ∈ underlying_function_names relu_gelu_spec) as Hin.
  { apply list_elem_of_In. simpl. auto. }
  assert (attrs small_start !! (F, "gelu") = None) as Hmiss
    by (vm_compute; reflexivity).
  split; [exact Hin |]. split; [exact Hmiss |].
  destruct (missing_name_is_skipped plain_env F relu_gelu_spec None "gelu"
              small_start Hin Hmiss (fun _ _ => eq_refl))
    as [_ (s' & Hs' & Hnone & _ & Hnames)].
  exists s'. split; [exact Hs' |]. split; [exact Hnone |].
  destruct (Hnames "relu") as (k & o & Hk & Hc & _).
  - apply list_elem_of_In. simpl. auto.
  - vm_compute. eauto.
  - exists k, o. split; [exact Hk | exact Hc].
Defined.

(** * Trace forwarding *)

(** ** Indices and loops *)

Lemma elem_of_indices_where p l j :
  j ∈ indices_where p l <-> exists v, l !! j = Some v /\ p v = true.
Proof.
  unfold indices_where. rewrite list_elem_of_In, filter_In, in_seq. split.
  - intros [_ Hp]. destruct (l !! j) as [v|]; [eauto | done].
  - intros (v & Hv & Hp). rewrite Hv. split; [| done].
    apply lookup_lt_Some in Hv. lia.
Qed.

Lemma NoDup_indices_where p l : NoDup (indices_where p l).
Proof.
  unfold indices_where.
  apply NoDup_ListNoDup, List.NoDup_filter, NoDup_ListNoDup, NoDup_seq.
Qed.

Lemma not_elem_of_indices_where p l j v :
  l !! j = Some v -> p v = false -> j ∉ indices_where p l.
Proof.
  intros Hv Hp (v' & Hv' & Hp')%elem_of_indices_where. congruence.
Qed.

Lemma alter_last {A} (f : A -> A) (l : list A) (x : A) :
  alter f (length l) (l ++ [x]) = l ++ [f x].
Proof. induction l as [|y l IH]; simpl; [done |]. by rewrite <- IH. Qed.

Lemma for_fold_ext {S A B} (l : list A) (body body' : B -> A -> M S B) acc s :
  (forall b x s0, body b x s0 = body' b x s0) ->
  for_fold l body acc s = for_fold l body' acc s.
Proof.
  intros H. revert acc s. induction l as [|x l IH]; intros acc s; simpl; [done |].
  apply bind_ext; [apply H | intros b s0; apply IH].
Qed.

Lemma for_fold_map {S A A' B} (f : A -> A') (l : list A) (body : B -> A' -> M S B) acc s :
  for_fold (map f l) body acc s = for_fold l (fun b x => body b (f x)) acc s.
Proof.
  revert acc s. induction l as [|x l IH]; intros acc s; simpl; [done |].
  apply bind_ext; [done | intros b s0; apply IH].
Qed.

Lemma call_operator_Return operator args kwargs v w :
  run operator args kwargs = Return v ->
  call_operator operator args kwargs w = (Return v, executed_once operator args kwargs w).
Proof. unfold call_operator, bind, modify. simpl. by intros ->. Qed.

(** ** One forwarding step and the loop of steps *)

Lemma forward_meta_ok fargs w items in_idx out_idx d sh l m x :
  fargs !! in_idx = Some (VTracedTensor d sh l) ->
  metas w !! l = Some m ->
  items !! out_idx = Some x ->
  isinstance_Tensor x = true ->
  forward_meta fargs in_idx items out_idx w =
    (Return (<[out_idx := traced_with x (length (metas w))]> items),
     {| metas := metas w ++ [with_shape m (value_shape x)];
        executed := executed w |}).
Proof.
  intros Hin Hm Hout Hx.
  unfold forward_meta, getitem, get_tensor_meta, deepcopy, get_shape, set_shape,
    from_torch_tensor, bind, get, modify, ret.
  rewrite Hin. simpl. rewrite Hm. simpl. rewrite Hout.
  destruct x; try discriminate Hx; simpl; by rewrite alter_last.
Qed.

Lemma forward_loop_ok fargs ios :
  forall items w,
    Forall (forwardable fargs w items) ios ->
    NoDup (map snd ios) ->
    exists items' w',
      for_fold ios (fun result io => forward_meta fargs io.1 result io.2) items w =
        (Return items', w') /\
      forwarded fargs w items ios items' w'.
Proof.
  induction ios as [|io ios IH]; intros items w Hfw Hnd; simpl.
  - exists items, w. split; [done |]. unfold forwarded.
    repeat split; done.
  - apply Forall_cons in Hfw as [Hio Hfw]. apply NoDup_cons in Hnd as [Hnotin Hnd].
    destruct Hio as (d & sh & l & m & x & Hin & Hm & Hout & Hx).
    pose proof (forward_meta_ok fargs w items io.1 io.2 d sh l m x Hin Hm Hout Hx)
      as Hstep.
    set (items1 := <[io.2 := traced_with x (length (metas w))]> items) in *.
    set (w1 := {| metas := metas w ++ [with_shape m (value_shape x)];
                  executed := executed w |}) in *.
    assert (forall io', io' ∈ ios -> io'.2 <> io.2) as Hne.
    { intros io' Hio' Heq. apply Hnotin. rewrite <- Heq. by apply list_elem_of_fmap_2. }
    destruct (IH items1 w1) as (items' & w' & Hrun & Hlen & Hex & Hpre & Hmlen & Hun & Hpos).
    { apply Forall_forall. intros io' Hio'.
      pose proof (proj1 (Forall_forall _ _) Hfw io' Hio')
        as (d' & sh' & l' & m' & x' & Hin' & Hm' & Hout' & Hx').
      exists d', sh', l', m', x'. split; [done |].
      split; [by apply lookup_app_l_Some |]. split; [| done].
      unfold items1. rewrite list_lookup_insert_ne; [done |].
      intros Heq. by apply (Hne io' Hio'). }
    { done. }
    exists items', w'. split; [by rewrite (bind_Return _ _ _ _ _ Hstep) |].
    unfold forwarded. simpl in Hmlen. rewrite length_app in Hmlen. simpl in Hmlen.
    split; [by rewrite Hlen; apply length_insert |].
    split; [done |].
    split; [by etrans; [apply prefix_app_r | exact Hpre] |].
    split; [simpl; lia |].
    split.
    { intros j [Hj0 Hj]%not_elem_of_cons. rewrite Hun by done.
      unfold items1. by rewrite list_lookup_insert_ne. }
    intros [|pos] io'; simpl.
    + intros [= <-]. exists d, sh, l, m, x. repeat split; try done.
      * rewrite Hun by done. unfold items1. rewrite Nat.add_0_r.
        apply list_lookup_insert_eq. by eapply lookup_lt_Some.
      * eapply prefix_lookup_Some; [| exact Hpre]. simpl.
        rewrite Nat.add_0_r, lookup_app_r by done. by rewrite Nat.sub_diag.
    + intros Hio'. destruct (Hpos pos io' Hio')
        as (d' & sh' & l' & m' & x' & Hin' & Hm' & Hout' & Hres' & Hmeta').
      assert (io' ∈ ios) as Hel by (by eapply list_elem_of_lookup_2).
      pose proof (proj1 (Forall_forall _ _) Hfw io' Hel)
        as (d0 & sh0 & l0 & m0 & x0 & Hin0 & Hm0 & Hout0 & Hx0).
      rewrite Hin0 in Hin'. injection Hin' as <- <- <-.
      assert (m' = m0) as ->.
      { apply (lookup_app_l_Some _ [with_shape m (value_shape x)]) in Hm0.
        simpl in Hm'. congruence. }
      unfold items1 in Hout'. rewrite list_lookup_insert_ne in Hout'
        by (intros Heq; by apply (Hne io' Hel)).
      exists d0, sh0, l0, m0, x'. repeat split; try done.
      * simpl in Hres'. rewrite length_app in Hres'. simpl in Hres'.
        by replace (length (metas w) + S pos) with (length (metas w) + 1 + pos) by lia.
      * simpl in Hmeta'. rewrite length_app in Hmeta'. simpl in Hmeta'.
        by replace (length (metas w) + S pos) with (length (metas w) + 1 + pos) by lia.
Qed.

(** ** The two shapes of the result *)

Lemma call_on_sequence flatten_args operator args kwargs w was_tuple items :
  run operator args kwargs = Return (sequence was_tuple items) ->
  ForwardTraceOnly_call flatten_args operator args kwargs w =
    (do result' <-
       (if decide (length (indices_where isinstance_TracedTensor
                             (flatten_args args kwargs)) = 1) then
          for_fold (indices_where isinstance_Tensor items)
            (fun result out_idx =>
               do in_idx <- getitem (indices_where isinstance_TracedTensor
                                       (flatten_args args kwargs)) 0;
               forward_meta (flatten_args args kwargs) in_idx result out_idx)
            items
        else if decide (length (indices_where isinstance_TracedTensor
                                  (flatten_args args kwargs)) ≠
                        length (indices_where isinstance_Tensor items)) then
          raise (RuntimeError (mismatch_message operator))
        else
          for_fold (zip (indices_where isinstance_TracedTensor
                           (flatten_args args kwargs))
                        (indices_where isinstance_Tensor items))
            (fun result io => forward_meta (flatten_args args kwargs) io.1 result io.2)
            items);
     ret (sequence was_tuple result'))
      (executed_once operator args kwargs w).
Proof.
  intros Hrun. unfold ForwardTraceOnly_call.
  rewrite (bind_Return _ _ _ _ _ (call_operator_Return _ _ _ _ w Hrun)).
  by destruct was_tuple.
Qed.

Lemma call_on_single flatten_args operator args kwargs w v :
  run operator args kwargs = Return v ->
  is_sequence v = false ->
  ForwardTraceOnly_call flatten_args operator args kwargs w =
    (if decide (1 < length (indices_where isinstance_TracedTensor
                              (flatten_args args kwargs))) then
       raise (RuntimeError (mismatch_message operator))
     else if decide (indices_where isinstance_TracedTensor
                       (flatten_args args kwargs) ≠ []) then
       do in_idx <- getitem (indices_where isinstance_TracedTensor
                               (flatten_args args kwargs)) 0;
       do arg <- getitem (flatten_args args kwargs) in_idx;
       do m <- get_tensor_meta arg;
       do forwarded_meta <- deepcopy m;
       do sh <- get_shape v;
       set_shape forwarded_meta sh ;;
       from_torch_tensor v forwarded_meta
     else ret v)
      (executed_once operator args kwargs w).
Proof.
  intros Hrun Hv. unfold ForwardTraceOnly_call.
  rewrite (bind_Return _ _ _ _ _ (call_operator_Return _ _ _ _ w Hrun)).
  by destruct v.
Qed.

(** What [forwarded] says of the outputs that are not tensors. *)
Lemma forwarded_other fargs w items ios items' w' j x :
  forwarded fargs w items ios items' w' ->
  map snd ios = indices_where isinstance_Tensor items ->
  items !! j = Some x -> isinstance_Tensor x = false ->
  items' !! j = Some x.
Proof.
  intros (_ & _ & _ & _ & Hun & _) Hsnd Hj Hx. rewrite Hun; [done |].
  rewrite Hsnd. by eapply not_elem_of_indices_where.
Qed.

(** C5.  When the result is a list or a tuple and exactly one flattened
    argument is a traced tensor, the call returns a sequence of the same kind
    and length in which every element that is not a tensor is unchanged, and
    every element that is a tensor is the same tensor, traced, referring to a
    metadata object of its own that did not exist before (the store only
    grows, so the argument's metadata is untouched) and that holds the
    creator of the argument's metadata and the shape of that element. *)
Theorem forward_broadcast flatten_args operator args kwargs w was_tuple items
    i d sh l m :
  run operator args kwargs = Return (sequence was_tuple items) ->
  indices_where isinstance_TracedTensor (flatten_args args kwargs) = [i] ->
  flatten_args args kwargs !! i = Some (VTracedTensor d sh l) ->
  metas w !! l = Some m ->
  exists items' w',
    ForwardTraceOnly_call flatten_args operator args kwargs w =
      (Return (sequence was_tuple items'), w') /\
    length items' = length items /\
    metas w `prefix_of` metas w' /\
    (forall j x, items !! j = Some x -> isinstance_Tensor x = false ->
       items' !! j = Some x) /\
    (forall j x, items !! j = Some x -> isinstance_Tensor x = true ->
       exists pos,
         indices_where isinstance_Tensor items !! pos = Some j /\
         items' !! j = Some (traced_with x (length (metas w) + pos)) /\
         metas w' !! (length (metas w) + pos) = Some (with_shape m (value_shape x))).
Proof.
  intros Hrun Hins Hi Hm.
  set (outs := indices_where isinstance_Tensor items).
  assert (map snd (map (pair i) outs) = outs) as Hsnd.
  { rewrite map_map. simpl. apply map_id. }
  destruct (forward_loop_ok (flatten_args args kwargs) (map (pair i) outs) items
              (executed_once operator args kwargs w))
    as (items' & w' & Hloop & Hfwd).
  { apply Forall_forall. intros io (j & -> & Hj)%list_elem_of_fmap.
    apply elem_of_indices_where in Hj as (x & Hx & Htx).
    by exists d, sh, l, m, x. }
  { rewrite Hsnd. apply NoDup_indices_where. }
  exists items', w'. split.
  { rewrite (call_on_sequence _ _ _ _ _ _ _ Hrun), Hins. simpl.
    fold outs. erewrite bind_Return; [reflexivity |].
    rewrite for_fold_map in Hloop. rewrite <- Hloop. by apply for_fold_ext. }
  pose proof Hfwd as (Hlen & _ & Hpre & _ & _ & Hpos).
  split; [done |]. split; [done |]. split.
  { intros j x Hj Hx. by eapply forwarded_other. }
  intros j x Hj Hx.
  assert (j ∈ outs) as [pos Hp]%list_elem_of_lookup.
  { apply elem_of_indices_where. eauto. }
  exists pos. split; [done |].
  destruct (Hpos pos (i, j)) as (d' & sh' & l' & m' & x' & Hi' & Hm' & Hj' & Hres & Hmeta).
  { by rewrite list_lookup_fmap, Hp. }
  simpl in *. rewrite Hi in Hi'. injection Hi' as <- <- <-.
  rewrite Hj in Hj'. injection Hj' as <-.
  rewrite Hm in Hm'. injection Hm' as <-. done.
Qed.

(** C6.  When the result is a list or a tuple, the number of traced tensors
    among the flattened arguments is not one, and it is the number of tensors
    in the result, the call returns a sequence of the same kind and length in
    which every element that is not a tensor is unchanged and, for every
    position [pos], the [pos]-th tensor of the result is the same tensor,
    traced, referring to a metadata object of its own that holds the creator
    of the [pos]-th traced argument and the shape of that element.  A tensor
    of the result has one position only, so it receives the metadata of no
    other argument. *)
Theorem forward_pairwise flatten_args operator args kwargs w was_tuple items :
  run operator args kwargs = Return (sequence was_tuple items) ->
  length (indices_where isinstance_TracedTensor (flatten_args args kwargs)) ≠ 1 ->
  length (indices_where isinstance_TracedTensor (flatten_args args kwargs)) =
    length (indices_where isinstance_Tensor items) ->
  metas_of_args_exist (flatten_args args kwargs) w ->
  exists items' w',
    ForwardTraceOnly_call flatten_args operator args kwargs w =
      (Return (sequence was_tuple items'), w') /\
    length items' = length items /\
    metas w `prefix_of` metas w' /\
    (forall j x, items !! j = Some x -> isinstance_Tensor x = false ->
       items' !! j = Some x) /\
    (forall pos i j,
       indices_where isinstance_TracedTensor (flatten_args args kwargs) !! pos = Some i ->
       indices_where isinstance_Tensor items !! pos = Some j ->
       exists d sh l m x,
         flatten_args args kwargs !! i = Some (VTracedTensor d sh l) /\
         metas w !! l = Some m /\
         items !! j = Some x /\
         items' !! j = Some (traced_with x (length (metas w) + pos)) /\
         metas w' !! (length (metas w) + pos) = Some (with_shape m (value_shape x))) /\
    (forall j x, items !! j = Some x -> isinstance_Tensor x = true ->
       exists pos,
         indices_where isinstance_Tensor items !! pos = Some j /\
         forall pos', indices_where isinstance_Tensor items !! pos' = Some j ->
                      pos' = pos).
Proof.
  intros Hrun Hne Heq Hex.
  set (fargs := flatten_args args kwargs) in *.
  set (ins := indices_where isinstance_TracedTensor fargs) in *.
  set (outs := indices_where isinstance_Tensor items) in *.
  assert (map snd (zip ins outs) = outs) as Hsnd.
  { apply snd_zip. lia. }
  destruct (forward_loop_ok fargs (zip ins outs) items
              (executed_once operator args kwargs w))
    as (items' & w' & Hloop & Hfwd).
  { apply Forall_lookup. intros pos [i j] Hio.
    apply lookup_zip_with_Some in Hio as (i' & j' & [= <- <-] & Hi & Hj).
    apply list_elem_of_lookup_2, elem_of_indices_where in Hi as (a & Ha & Hta).
    apply list_elem_of_lookup_2, elem_of_indices_where in Hj as (x & Hx & Htx).
    destruct a as [| d sh l | | |]; try discriminate Hta.
    destruct (Hex i d sh l Ha) as [m Hm].
    by exists d, sh, l, m, x. }
  { rewrite Hsnd. apply NoDup_indices_where. }
  exists items', w'. split.
  { rewrite (call_on_sequence _ _ _ _ _ _ _ Hrun).
    fold fargs ins outs.
    rewrite decide_False by done. rewrite decide_False by (intros Hc; by apply Hc).
    erewrite bind_Return; [reflexivity | exact Hloop]. }
  pose proof Hfwd as (Hlen & _ & Hpre & _ & _ & Hpos).
  split; [done |]. split; [done |]. split.
  { intros j x Hj Hx. by eapply forwarded_other. }
  split.
  - intros pos i j Hi Hj.
    destruct (Hpos pos (i, j)) as (d & sh & l & m & x & H1 & H2 & H3 & H4 & H5).
    { apply lookup_zip_with_Some. by exists i, j. }
    by exists d, sh, l, m, x.
  - intros j x Hj Hx.
    assert (j ∈ outs) as [pos Hp]%list_elem_of_lookup.
    { apply elem_of_indices_where. eauto. }
    exists pos. split; [done |]. intros pos' Hp'.
    eapply NoDup_lookup; [apply (NoDup_indices_where isinstance_Tensor items) | |];
      done.
Qed.

(** C7.  Whenever the counts cannot be reconciled (the result is a list or a
    tuple and the number of traced arguments is neither one nor the number of
    tensors of the result, or the result is a single value and more than one
    argument is traced), the call raises the [RuntimeError] whose message
    names the operator, and the world it leaves is the one before the call
    with exactly one execution of the operator appended: the operator has run
    once and nothing else has changed. *)
Theorem forward_mismatch_raises flatten_args operator args kwargs w v :
  run operator args kwargs = Return v ->
  match v with
  | VList items | VTuple items =>
      length (indices_where isinstance_TracedTensor (flatten_args args kwargs)) ≠ 1 /\
      length (indices_where isinstance_TracedTensor (flatten_args args kwargs)) ≠
        length (indices_where isinstance_Tensor items)
  | _ => 1 < length (indices_where isinstance_TracedTensor (flatten_args args kwargs))
  end ->
  ForwardTraceOnly_call flatten_args operator args kwargs w =
    (Raise (RuntimeError
       ("Unable to forward trace through operator " +:+ __name__ operator +:+
        " - input and output tensor count mismatch!")),
     executed_once operator args kwargs w) /\
  executed (executed_once operator args kwargs w) =
    executed w ++ [{| exec_name := __name__ operator; exec_args := args;
                      exec_kwargs := kwargs |}] /\
  metas (executed_once operator args kwargs w) = metas w.
Proof.
  intros Hrun Hcount. split; [| done].
  assert (forall was_tuple items, v = sequence was_tuple items ->
    length (indices_where isinstance_TracedTensor (flatten_args args kwargs)) ≠ 1 ->
    length (indices_where isinstance_TracedTensor (flatten_args args kwargs)) ≠
      length (indices_where isinstance_Tensor items) ->
    ForwardTraceOnly_call flatten_args operator args kwargs w =
      (Raise (RuntimeError (mismatch_message operator)),
       executed_once operator args kwargs w)) as Hseq.
  { intros was_tuple items -> H1 Hn.
    rewrite (call_on_sequence _ _ _ _ _ _ _ Hrun).
    rewrite decide_False by done. by rewrite decide_True by done. }
  destruct v as [| | | items | items].
  1-3: rewrite (call_on_single _ _ _ _ _ _ Hrun) by done;
       by rewrite decide_True by done.
  - destruct Hcount. by apply (Hseq false items).
  - destruct Hcount. by apply (Hseq true items).
Qed.

(** C8, as amended.  When the result is a single value (neither a list nor a
    tuple): if exactly one flattened argument is a traced tensor and the
    result is a tensor, the call returns the same tensor, traced, referring
    to a new metadata object that holds the creator of the argument's
    metadata and the shape of the result; if no flattened argument is a
    traced tensor, the call returns the result itself, whatever it is, and
    creates no metadata. *)
Theorem forward_single flatten_args operator args kwargs w v :
  run operator args kwargs = Return v ->
  is_sequence v = false ->
  (forall i d sh l m,
     indices_where isinstance_TracedTensor (flatten_args args kwargs) = [i] ->
     flatten_args args kwargs !! i = Some (VTracedTensor d sh l) ->
     metas w !! l = Some m ->
     isinstance_Tensor v = true ->
     ForwardTraceOnly_call flatten_args operator args kwargs w =
       (Return (traced_with v (length (metas w))),
        {| metas := metas w ++ [with_shape m (value_shape v)];
           executed := executed (executed_once operator args kwargs w) |})) /\
  (indices_where isinstance_TracedTensor (flatten_args args kwargs) = [] ->
   ForwardTraceOnly_call flatten_args operator args kwargs w =
     (Return v, executed_once operator args kwargs w)).
Proof.
  intros Hrun Hv. split.
  - intros i d sh l m Hins Hi Hm Hten.
    rewrite (call_on_single _ _ _ _ _ _ Hrun Hv), Hins.
    rewrite decide_False by (simpl; lia). rewrite decide_True by done.
    unfold getitem, get_tensor_meta, deepcopy, get_shape, set_shape,
      from_torch_tensor, bind, get, modify, ret.
    simpl. rewrite Hi. simpl. rewrite Hm.
    destruct v; try discriminate Hten; simpl; by rewrite alter_last.
  - intros Hins. rewrite (call_on_single _ _ _ _ _ _ Hrun Hv), Hins.
    rewrite decide_False by (simpl; lia). by rewrite decide_False by (by intros []).
Qed.

(** C8, as the specification states it, fails: with exactly one traced
    argument and a single result that is not a tensor (what [__repr__]
    returns, for one), reading the shape of the result raises
    [AttributeError] and nothing is returned. *)
Lemma single_result_counterexample :
  ~ single_result_is_wrapped flatten_one_level repr_operator one_traced [] two_metas.
Proof.
  intros Hclaim.
  destruct (Hclaim (VOther 3)) as (d & sh & l & w' & Hcall);
    [reflexivity | reflexivity | reflexivity |].
  vm_compute in Hcall. discriminate Hcall.
Qed.

(** ** The properties on concrete calls *)

Lemma forward_broadcast_witness :
  run split_operator one_traced [] = Return (sequence true three_outputs) /\
  indices_where isinstance_TracedTensor (flatten_one_level one_traced []) = [0] /\
  flatten_one_level one_traced [] !! 0 = Some (VTracedTensor 100 [2; 3] 0) /\
  metas two_metas !! 0 = Some {| creator_id := 10; shape := [2; 3] |} /\
  exists items' w',
    ForwardTraceOnly_call flatten_one_level split_operator one_traced [] two_metas =
      (Return (sequence true items'), w') /\
    items' !! 1 = Some (VOther 1) /\
    exists pos,
      items' !! 3 = Some (traced_with out_z (2 + pos)) /\
      metas w' !! (2 + pos) = Some {| creator_id := 10; shape := [1] |}.
Proof.
  split; [reflexivity |]. split; [reflexivity |]. split; [reflexivity |].
  split; [reflexivity |].
  destruct (forward_broadcast flatten_one_level split_operator one_traced []
              two_metas true three_outputs 0 100 [2; 3] 0
              {| creator_id := 10; shape := [2; 3] |}
              eq_refl eq_refl eq_refl eq_refl)
    as (items' & w' & Hcall & _ & _ & Hother & Htensor).
  exists items', w'. split; [exact Hcall |].
  split; [exact (Hother 1 (VOther 1) eq_refl eq_refl) |].
  destruct (Htensor 3 out_z eq_refl eq_refl) as (pos & _ & Hres & Hmeta).
  exists pos. split; [exact Hres | exact Hmeta].
Defined.

Lemma forward_pairwise_witness :
  run pair_operator one_traced keyword_b = Return (sequence false two_outputs) /\
  length (indices_where isinstance_TracedTensor
            (flatten_one_level one_traced keyword_b)) = 2 /\
  length (indices_where isinstance_Tensor two_outputs) = 2 /\
  exists items' w',
    ForwardTraceOnly_call flatten_one_level pair_operator one_traced keyword_b
        two_metas = (Return (sequence false items'), w') /\
    items' !! 0 = Some (traced_with out_x 2) /\
    metas w' !! 2 = Some {| creator_id := 10; shape := [7] |} /\
    items' !! 2 = Some (traced_with out_y 3) /\
    metas w' !! 3 = Some {| creator_id := 20; shape := [8; 9] |}.
Proof.
  split; [reflexivity |]. split; [reflexivity |]. split; [reflexivity |].
  destruct (forward_pairwise flatten_one_level pair_operator one_traced keyword_b
              two_metas false two_outputs)
    as (items' & w' & Hcall & _ & _ & _ & Hpos & _).
  - reflexivity.
  - vm_compute. intros H. discriminate H.
  - reflexivity.
  - intros [|[|[|i]]] d sh l Hi; vm_compute in Hi; try discriminate Hi;
      injection Hi as <- <- <-; vm_compute; eauto.
  - exists items', w'. split; [exact Hcall |].
    destruct (Hpos 0 0 0 eq_refl eq_refl)
      as (d0 & sh0 & l0 & m0 & x0 & Ha0 & Hm0 & Hx0 & Hres0 & Hmeta0).
    destruct (Hpos 1 2 2 eq_refl eq_refl)
      as (d1 & sh1 & l1 & m1 & x1 & Ha1 & Hm1 & Hx1 & Hres1 & Hmeta1).
    vm_compute in Ha0. injection Ha0 as <- <- <-.
    vm_compute in Hm0. injection Hm0 as <-.
    vm_compute in Hx0. injection Hx0 as <-.
    vm_compute in Ha1. injection Ha1 as <- <- <-.
    vm_compute in Hm1. injection Hm1 as <-.
    vm_compute in Hx1. injection Hx1 as <-.
    split; [exact Hres0 |]. split; [exact Hmeta0 |].
    split; [exact Hres1 | exact Hmeta1].
Defined.

Lemma forward_mismatch_raises_witness :
  run split_operator one_traced keyword_b = Return (VTuple three_outputs) /\
  length (indices_where isinstance_TracedTensor
            (flatten_one_level one_traced keyword_b)) = 2 /\
  length (indices_where isinstance_Tensor three_outputs) = 3 /\
  ForwardTraceOnly_call flatten_one_level split_operator one_traced keyword_b two_metas =
    (Raise (RuntimeError
       "Unable to forward trace through operator split - input and output tensor count mismatch!"),
     executed_once split_operator one_traced keyword_b two_metas) /\
  length (executed (executed_once split_operator one_traced keyword_b two_metas)) = 1.
Proof.
  split; [reflexivity |]. split; [reflexivity |]. split; [reflexivity |].
  destruct (forward_mismatch_raises flatten_one_level split_operator one_traced
              keyword_b two_metas (VTuple three_outputs) eq_refl)
    as (Hcall & Hexec & _).
  - vm_compute. split; intros H; discriminate H.
  - split; [exact Hcall |]. rewrite Hexec. reflexivity.
Defined.

Lemma forward_single_witness :
  run tensor_operator one_traced [] = Return out_x /\
  indices_where isinstance_TracedTensor (flatten_one_level one_traced []) = [0] /\
  ForwardTraceOnly_call flatten_one_level tensor_operator one_traced [] two_metas =
    (Return (VTracedTensor 200 [7] 2),
     {| metas := metas two_metas ++ [{| creator_id := 10; shape := [7] |}];
        executed := executed (executed_once tensor_operator one_traced [] two_metas) |}) /\
  run repr_operator [plain_c] [] = Return (VOther 3) /\
  ForwardTraceOnly_call flatten_one_level repr_operator [plain_c] [] two_metas =
    (Return (VOther 3), executed_once repr_operator [plain_c] [] two_metas).
Proof.
  split; [reflexivity |]. split; [reflexivity |].
  split.
  - exact (proj1 (forward_single flatten_one_level tensor_operator one_traced []
                    two_metas out_x eq_refl eq_refl)
             0 100 [2; 3] 0 {| creator_id := 10; shape := [2; 3] |}
             eq_refl eq_refl eq_refl eq_refl).
  - split; [reflexivity |].
    exact (proj2 (forward_single flatten_one_level repr_operator [plain_c] []
                    two_metas (VOther 3) eq_refl eq_refl) eq_refl).
Defined.

(** * Further properties of the life cycle *)

(** ** [unpatch_torch_operators], whatever its outcome *)

Lemma setattr_any E ns name v s r s' :
  setattr E ns name v s = (r, s') ->
  closures s' = closures s /\
  ORIGINAL_OPERATORS s' = ORIGINAL_OPERATORS s /\
  _ORIG_JIT_SCRIPT s' = _ORIG_JIT_SCRIPT s /\
  same_flags s s' /\
  forall t, t <> (ns, name) -> attrs s' !! t = attrs s !! t.
Proof.
  run_statement. destruct (read_only E ns name); simpl; intros [= <- <-]; simpl.
  - done.
  - repeat split; try done. intros t Ht. by apply lookup_insert_ne.
Qed.

Lemma restore_any E l s r s' :
  for_each l (fun orig_op_info =>
    setattr E (ooi_namespace orig_op_info) (ooi_name orig_op_info)
      (ooi_op orig_op_info)) s = (r, s') ->
  closures s' = closures s /\
  ORIGINAL_OPERATORS s' = ORIGINAL_OPERATORS s /\
  _ORIG_JIT_SCRIPT s' = _ORIG_JIT_SCRIPT s /\
  same_flags s s' /\
  forall t, t ∉ map ooi_target l -> attrs s' !! t = attrs s !! t.
Proof.
  revert s. induction l as [|r0 l IH]; intros s; simpl.
  - by intros [= <- <-].
  - intros [(a & s1 & H1 & H2)|(e & H1 & _)]%bind_inv.
    + apply setattr_any in H1 as (Hc & Hr & Hg & Hf & Ha).
      apply IH in H2 as (Hc' & Hr' & Hg' & Hf' & Ha').
      split; [congruence |]. split; [congruence |]. split; [congruence |].
      split; [by etrans |].
      intros t [Ht0 Ht]%not_elem_of_cons. rewrite Ha' by done. by apply Ha.
    + apply setattr_any in H1 as (Hc & Hr & Hg & Hf & Ha).
      split; [done |]. split; [done |]. split; [done |]. split; [done |].
      intros t [Ht0 Ht]%not_elem_of_cons. by apply Ha.
Qed.

(** X2.  Whatever its outcome, [unpatch_torch_operators] leaves the flag
    unset, never removes a record from the registry (it is not cleared),
    leaves the JIT flag and the captured original alone, and touches no slot
    but those the records name; [torch.jit.script], which no record names,
    stays what it is. *)
Theorem unpatch_frame E s r s' :
  unpatch_torch_operators E s = (r, s') ->
  _OPERATORS_ALREADY_WRAPPED s' = false /\
  ORIGINAL_OPERATORS s' = ORIGINAL_OPERATORS s /\
  closures s' = closures s /\
  _JIT_ALREADY_WRAPPED s' = _JIT_ALREADY_WRAPPED s /\
  _ORIG_JIT_SCRIPT s' = _ORIG_JIT_SCRIPT s /\
  forall t, t ∉ map ooi_target (ORIGINAL_OPERATORS s) ->
            attrs s' !! t = attrs s !! t.
Proof.
  destruct (_OPERATORS_ALREADY_WRAPPED s) eqn:Ho.
  - unfold unpatch_torch_operators, bind, get, modify. simpl. rewrite Ho. simpl.
    intros (Hc & Hr & Hg & [Hj Hf] & Ha)%restore_any. simpl in *. done.
  - rewrite unpatch_torch_operators_noop by done. by intros [= <- <-].
Qed.

Lemma unpatch_frame_witness :
  unpatch_torch_operators plain_env (after_calls plain_env [patchAll]) =
    (Return tt, after_calls plain_env [patchAll; unpatchAll]) /\
  length (ORIGINAL_OPERATORS (after_calls plain_env [patchAll; unpatchAll])) = 4 /\
  attrs (after_calls plain_env [patchAll; unpatchAll]) !! jit_slot =
    Some torch_jit_script_wrapper_fn.
Proof.
  assert (unpatch_torch_operators plain_env (after_calls plain_env [patchAll]) =
          (Return tt, after_calls plain_env [patchAll; unpatchAll])) as H
    by (vm_compute; reflexivity).
  destruct (unpatch_frame plain_env _ _ _ H) as (_ & Hr & _ & _ & _ & Ha).
  split; [exact H |]. split; [rewrite Hr; vm_compute; reflexivity |].
  rewrite Ha; [vm_compute; reflexivity |].
  apply (bool_decide_unpack _). vm_compute. exact I.
Defined.

(** X1.  After a call of [unpatch_torch_operators], whether it returned or
    raised while restoring a slot, a further call returns at once and leaves
    the state as it is: the flag is unset before the loop, so a call that
    raised is never resumed and the remaining records are not restored. *)
Theorem unpatch_again_is_noop E s r s1 :
  unpatch_torch_operators E s = (r, s1) ->
  unpatch_torch_operators E s1 = (Return tt, s1).
Proof.
  intros H. apply unpatch_torch_operators_noop.
  by apply unpatch_frame in H as (Ho & _).
Qed.

Lemma unpatch_again_is_noop_witness :
  unpatch_torch_operators frozen_env (patch_torch_operators frozen_env small_start).2 =
    (Raise (AttributeError "relu"),
     (unpatch_torch_operators frozen_env
        (patch_torch_operators frozen_env small_start).2).2) /\
  unpatch_torch_operators frozen_env
    (unpatch_torch_operators frozen_env
       (patch_torch_operators frozen_env small_start).2).2 =
    (Return tt,
     (unpatch_torch_operators frozen_env
        (patch_torch_operators frozen_env small_start).2).2).
Proof.
  assert (unpatch_torch_operators frozen_env
            (patch_torch_operators frozen_env small_start).2 =
          (Raise (AttributeError "relu"),
           (unpatch_torch_operators frozen_env
              (patch_torch_operators frozen_env small_start).2).2)) as H
    by (vm_compute; reflexivity).
  split; [exact H |].
  exact (unpatch_again_is_noop frozen_env _ _ _ H).
Defined.

(** ** [torch.jit.script] missing *)

(** X8.  A missing [torch.jit.script] is fatal, unlike a missing operator:
    with the JIT flag unset and no such attribute, [patch_torch_operators]
    raises [AttributeError] from the one read of the slot, and has patched
    nothing: the state is what it was but for the trace of that read, both
    flags included. *)
Theorem patch_without_jit_script E s :
  _JIT_ALREADY_WRAPPED s = false ->
  attrs s !! jit_slot = None ->
  patch_torch_operators E s =
    (Raise (AttributeError "script"),
     with_accesses (accesses s ++ [Getattr torch_jit "script"]) s).
Proof.
  intros Hj Ha. unfold patch_torch_operators, patch_torch_jit_script, getattr,
    log_access, bind, get, modify, raise. simpl. rewrite Hj. simpl.
  unfold jit_slot in Ha. by rewrite Ha.
Qed.

Lemma patch_without_jit_script_witness :
  attrs (initial_state no_jit_framework) !! jit_slot = None /\
  (patch_torch_operators plain_env (initial_state no_jit_framework)).1 =
    Raise (AttributeError "script") /\
  _OPERATORS_ALREADY_WRAPPED
    (patch_torch_operators plain_env (initial_state no_jit_framework)).2 = false /\
  attrs (patch_torch_operators plain_env (initial_state no_jit_framework)).2 !! (F, "relu") =
    Some (Builtin 1).
Proof.
  assert (attrs (initial_state no_jit_framework) !! jit_slot = None) as Ha
    by (vm_compute; reflexivity).
  split; [exact Ha |].
  rewrite (patch_without_jit_script plain_env (initial_state no_jit_framework)
             eq_refl Ha).
  split; [reflexivity |]. split; [reflexivity |]. vm_compute. reflexivity.
Defined.

(** ** What patching leaves of the shim's state *)

#[local] Instance off_jit_refl : Reflexive off_jit.
Proof. intros s. repeat split; auto. Qed.

#[local] Instance off_jit_trans : Transitive off_jit.
Proof.
  intros s1 s2 s3 (Ha & Hj & Hg & Hr) (Ha' & Hj' & Hg' & Hr').
  split; [congruence |]. split; [congruence |]. split; [congruence |].
  intros r [Hin|Hns]%Hr'; [by apply Hr | by right].
Qed.

Lemma keeps_for_each_Forall {S A} (R : S -> S -> Prop) `{!Reflexive R} `{!Transitive R}
    (l : list A) (body : A -> M S unit) :
  Forall (fun x => keeps R (body x)) l -> keeps R (for_each l body).
Proof.
  induction 1 as [|x l Hx Hl IH]; simpl.
  - intros s r s' [= _ <-]. done.
  - apply keeps_bind; [done | done | done].
Qed.

Lemma off_jit_intro s s' new :
  attrs s' !! jit_slot = attrs s !! jit_slot ->
  _JIT_ALREADY_WRAPPED s' = _JIT_ALREADY_WRAPPED s ->
  _ORIG_JIT_SCRIPT s' = _ORIG_JIT_SCRIPT s ->
  ORIGINAL_OPERATORS s' = ORIGINAL_OPERATORS s ++ new ->
  (forall r, r ∈ new -> ooi_namespace r <> torch_jit) ->
  off_jit s s'.
Proof.
  intros Ha Hj Hg Hr Hnew. split; [done |]. split; [done |]. split; [done |].
  rewrite Hr. intros r [Hin|Hin]%elem_of_app; [by left | right; by apply Hnew].
Qed.

Lemma patch_namespace_opname_off_jit E ns info :
  ns <> torch_jit -> keeps off_jit (patch_namespace_opname E ns info).
Proof.
  intros Hns s r s' H.
  assert ((ns, poi_name info) <> jit_slot) as Hslot by (by intros [= ? _]).
  destruct (attrs s !! (ns, poi_name info)) as [o|] eqn:Ha.
  - revert H. unfold patch_namespace_opname. run_statement. rewrite Ha. simpl.
    rewrite Ha.
    destruct (read_only E ns (poi_name info)); simpl; intros [= <- <-];
      (eapply off_jit_intro; simpl;
       [| done | done | reflexivity
        | by intros r' ->%list_elem_of_singleton]).
    + done.
    + by apply lookup_insert_ne.
  - destruct (patch_namespace_opname_missing E ns info s Ha)
      as (s1 & Hs1 & Hat & _ & Hr & [Hj _] & Hg & _).
    assert (s1 = s') as -> by congruence.
    apply (off_jit_intro s s' []); try done; [by rewrite Hat | by rewrite app_nil_r |].
    by intros r' ?%elem_of_nil.
Qed.

Lemma patch_module_call_off_jit E : keeps off_jit (patch_module_call E).
Proof.
  intros s r s'. run_statement.
  destruct (attrs s !! (torch_nn_Module, "__call__")) as [o|] eqn:Ha; simpl.
  - rewrite Ha. simpl.
    destruct (read_only E torch_nn_Module "__call__"); simpl; intros [= <- <-];
      (eapply off_jit_intro; simpl;
       [| done | done | reflexivity
        | by intros r' ->%list_elem_of_singleton]).
    + done.
    + by apply lookup_insert_ne.
  - intros [= <- <-]. apply (off_jit_intro _ _ []); simpl; try done.
    + by rewrite app_nil_r.
    + by intros r' ?%elem_of_nil.
Qed.

Lemma ignore_scope_off_jit cls : keeps off_jit (ignore_scope cls).
Proof.
  intros s r s'. run_statement. intros [= <- <-].
  apply (off_jit_intro _ _ []); simpl; try done.
  - by rewrite app_nil_r.
  - by intros r' ?%elem_of_nil.
Qed.

Lemma patch_body_off_jit E : keeps off_jit (patch_body E).
Proof.
  unfold patch_body.
  apply keeps_bind; [apply _ | |].
  { apply keeps_for_each_Forall; [apply _ | apply _ |].
    eapply Forall_impl; [apply patch_jobs_namespaces |].
    intros [ns info] Hns. by apply patch_namespace_opname_off_jit. }
  intros _. apply keeps_bind; [apply _ | apply patch_module_call_off_jit |].
  intros _. apply keeps_bind; [apply _ | apply ignore_scope_off_jit |].
  intros _. apply ignore_scope_off_jit.
Qed.

Lemma ops_phase_off_jit E : keeps off_jit (ops_phase E).
Proof.
  intros s r s' H. destruct (_OPERATORS_ALREADY_WRAPPED s) eqn:Ho.
  - rewrite ops_phase_noop in H by done. by injection H as <- <-.
  - rewrite ops_phase_unfold in H by done.
    apply patch_body_off_jit in H as (Ha & Hj & Hg & Hr).
    repeat split; done.
Qed.

Lemma unpatch_off_jit E s r s' :
  (forall r0, r0 ∈ ORIGINAL_OPERATORS s -> ooi_namespace r0 <> torch_jit) ->
  unpatch_torch_operators E s = (r, s') -> off_jit s s'.
Proof.
  intros Hrec (Ho & Hr & Hc & Hj & Hg & Ha)%unpatch_frame.
  split; [| split; [done | split; [done |]]].
  - apply Ha. intros (r0 & Heq & Hr0)%list_elem_of_fmap.
    apply (Hrec r0 Hr0). unfold ooi_target, jit_slot in Heq. congruence.
  - rewrite Hr. by left.
Qed.

Lemma jit_invariant_off_jit fw s s' :
  jit_invariant fw s -> off_jit s s' -> jit_invariant fw s'.
Proof.
  intros [Hrec Hun Hwr Hor] (Ha & Hj & Hg & Hr). split.
  - intros r [Hin|Hns]%Hr; [by apply Hrec | done].
  - rewrite Hj, Ha. done.
  - rewrite Hj, Ha, Hg. done.
  - by rewrite Hg.
Qed.

Lemma jit_invariant_jit_phase E fw s r s' :
  jit_invariant fw s -> jit_phase E s = (r, s') -> jit_invariant fw s'.
Proof.
  intros [Hrec Hun Hwr Hor]. unfold jit_phase. run_statement.
  destruct (_JIT_ALREADY_WRAPPED s) eqn:Hj; simpl.
  - intros [= <- <-]. split; try done; by rewrite Hj.
  - specialize (Hun eq_refl). unfold jit_slot in Hun.
    destruct (attrs s !! (torch_jit, "script")) as [o|] eqn:Ha; simpl.
    + destruct (read_only E torch_jit "script"); simpl; intros [= <- <-];
        split; simpl; try done; try (by rewrite ?Hj).
      * intros _. unfold jit_slot. congruence.
      * by right.
      * intros _. split; [apply lookup_insert_eq | by eexists].
      * by right.
    + intros [= <- <-]. split; simpl; try done.
      * intros _. unfold jit_slot. congruence.
      * by rewrite Hj.
Qed.

Lemma jit_invariant_patch E fw s r s' :
  jit_invariant fw s -> patch_torch_operators E s = (r, s') -> jit_invariant fw s'.
Proof.
  intros Hinv. rewrite patch_torch_operators_phases.
  intros [(a & s1 & H1 & H2)|(e & H1 & _)]%bind_inv.
  - eapply jit_invariant_off_jit; [| by eapply ops_phase_off_jit].
    by eapply jit_invariant_jit_phase.
  - by eapply jit_invariant_jit_phase.
Qed.

Lemma jit_invariant_unpatch E fw s r s' :
  jit_invariant fw s -> unpatch_torch_operators E s = (r, s') -> jit_invariant fw s'.
Proof.
  intros Hinv H. eapply jit_invariant_off_jit; [done |].
  eapply unpatch_off_jit; [apply Hinv | done].
Qed.

Lemma call_ORIG_JIT_SCRIPT_state E args s r s' :
  call_ORIG_JIT_SCRIPT E args s = (r, s') -> s' = s.
Proof.
  unfold call_ORIG_JIT_SCRIPT, bind, get. simpl.
  destruct (_ORIG_JIT_SCRIPT s) as [orig|]; [| by intros [= _ <-]].
  destruct (call_builtin E orig args); by intros [= _ <-].
Qed.

Lemma jit_invariant_state_after E fw s c :
  jit_invariant fw s -> jit_invariant fw (state_after E s c).
Proof.
  intros Hinv. unfold state_after. destruct c as [| |args]; simpl.
  - destruct (patch_torch_operators E s) as [r s'] eqn:H.
    by eapply jit_invariant_patch.
  - destruct (unpatch_torch_operators E s) as [r s'] eqn:H.
    by eapply jit_invariant_unpatch.
  - unfold torch_jit_script_wrapper.
    destruct (unpatch_torch_operators E s) as [r1 s1] eqn:H1.
    pose proof (jit_invariant_unpatch _ _ _ _ _ Hinv H1) as Hinv1.
    unfold bind at 1. unfold bind at 1. rewrite H1.
    destruct r1 as [[]|e]; [| done].
    destruct (call_ORIG_JIT_SCRIPT E args s1) as [r2 s2] eqn:H2.
    apply call_ORIG_JIT_SCRIPT_state in H2 as Hs2. subst s2.
    unfold bind at 1. rewrite H2. destruct r2 as [v|e]; [| done].
    destruct (patch_torch_operators E s1) as [r3 s3] eqn:H3.
    pose proof (jit_invariant_patch _ _ _ _ _ Hinv1 H3) as Hinv3.
    unfold bind. rewrite H3. by destruct r3 as [[]|e].
Qed.

Lemma jit_invariant_initial fw : jit_invariant fw (initial_state fw).
Proof. split; simpl; try done; [by intros r ?%elem_of_nil | by left]. Qed.

(** X7.  Whatever calls of the three entry points a process makes from the
    initial state of a framework, and whether they return or raise, the
    captured original [_ORIG_JIT_SCRIPT] is unset or the framework's own
    [torch.jit.script], never the shim (the shim cannot call itself); and once
    the JIT flag is set the slot holds the shim and the original is captured,
    for good: no call restores [torch.jit.script]. *)
Theorem jit_original_captured_once E fw cs :
  _ORIG_JIT_SCRIPT (states_after E cs (initial_state fw)) <>
    Some torch_jit_script_wrapper_fn /\
  (_JIT_ALREADY_WRAPPED (states_after E cs (initial_state fw)) = true ->
   attrs (states_after E cs (initial_state fw)) !! jit_slot =
     Some torch_jit_script_wrapper_fn /\
   exists n, fw !! jit_slot = Some n /\
             _ORIG_JIT_SCRIPT (states_after E cs (initial_state fw)) =
               Some (Builtin n)).
Proof.
  assert (jit_invariant fw (states_after E cs (initial_state fw))) as Hinv.
  { unfold states_after. generalize (jit_invariant_initial fw).
    generalize (initial_state fw). induction cs as [|c cs IH]; intros s Hs; simpl.
    - done.
    - apply IH. by apply jit_invariant_state_after. }
  destruct Hinv as [_ _ Hwr Hor]. split.
  - destruct Hor as [-> | ->]; [done |]. rewrite lookup_fmap.
    by destruct (fw !! jit_slot).
  - intros Hj. destruct (Hwr Hj) as [Ha [o Ho]]. split; [done |].
    destruct Hor as [Hor | Hor]; [congruence |].
    rewrite Hor, lookup_fmap in *. destruct (fw !! jit_slot) as [n|]; [| done].
    by exists n.
Qed.

(** ** The shim when compilation returns *)

Lemma torch_jit_script_wrapper_Return E args s v s' :
  torch_jit_script_wrapper E args s = (Return v, s') ->
  exists orig s1,
    unpatch_torch_operators E s = (Return tt, s1) /\
    _ORIG_JIT_SCRIPT s = Some orig /\
    call_builtin E orig args = Return v /\
    patch_torch_operators E s1 = (Return tt, s').
Proof.
  unfold torch_jit_script_wrapper.
  intros ([] & s1 & H1 & H2)%bind_inv_Return.
  apply bind_inv_Return in H2 as (retval & s2 & H2 & H3).
  apply bind_inv_Return in H3 as ([] & s3 & H3 & H4).
  injection H4 as <- <-.
  pose proof (call_ORIG_JIT_SCRIPT_state _ _ _ _ _ H2) as ->.
  apply unpatch_frame in H1 as Hframe. destruct Hframe as (_ & _ & _ & _ & Hg & _).
  revert H2. unfold call_ORIG_JIT_SCRIPT, bind, get. simpl. rewrite Hg.
  destruct (_ORIG_JIT_SCRIPT s) as [orig|]; [| done].
  destruct (call_builtin E orig args) as [v'|e] eqn:Hcall; [| done].
  intros [= <-]. by exists orig, s1.
Qed.

(** X5.  Whenever the shim returns, the operators are patched, whether or not
    they were before the call: it has unpatched, run the captured original on
    the arguments (its value is the one returned), and then called
    [patch_torch_operators], which returned.  So a compilation made after
    [unpatch_torch_operators] patches the operators again. *)
Theorem jit_wrapper_return_patches E args s v s' :
  torch_jit_script_wrapper E args s = (Return v, s') ->
  _OPERATORS_ALREADY_WRAPPED s' = true /\
  _JIT_ALREADY_WRAPPED s' = true /\
  exists orig, _ORIG_JIT_SCRIPT s = Some orig /\ call_builtin E orig args = Return v.
Proof.
  intros (orig & s1 & _ & Hg & Hcall & Hp)%torch_jit_script_wrapper_Return.
  destruct (patch_torch_operators_Return _ _ _ Hp) as [Hj Ho].
  split; [done |]. split; [done |]. by exists orig.
Qed.

Lemma jit_wrapper_return_patches_witness :
  _OPERATORS_ALREADY_WRAPPED (after_calls plain_env [patchAll; unpatchAll]) = false /\
  (torch_jit_script_wrapper plain_env []
     (after_calls plain_env [patchAll; unpatchAll])).1 = Return (Builtin 9) /\
  _OPERATORS_ALREADY_WRAPPED
    (torch_jit_script_wrapper plain_env []
       (after_calls plain_env [patchAll; unpatchAll])).2 = true.
Proof.
  split; [vm_compute; reflexivity |]. split; [vm_compute; reflexivity |].
  apply (jit_wrapper_return_patches plain_env []
           (after_calls plain_env [patchAll; unpatchAll]) (Builtin 9)).
  vm_compute. reflexivity.
Defined.

(** ** The invariant over all three entry points *)

Lemma lifecycle_invariant_run_entries E fw cs s s' :
  NoDup (existing_targets E fw) ->
  lifecycle_invariant E fw s ->
  run_entries E cs s = (Return tt, s') ->
  lifecycle_invariant E fw s'.
Proof.
  intros Hnd. unfold run_entries. revert s.
  induction cs as [|c cs IH]; intros s Hinv; simpl.
  - by intros [= <-].
  - intros ([] & s1 & H1 & H2)%bind_inv_Return.
    apply (IH s1); [| done]. destruct c as [| |args]; simpl in H1.
    + by eapply lifecycle_invariant_patch.
    + by eapply lifecycle_invariant_unpatch.
    + apply bind_inv_Return in H1 as (v & s2 & H1 & [= <-]).
      apply torch_jit_script_wrapper_Return in H1 as (orig & s0 & Hu & _ & _ & Hp).
      eapply lifecycle_invariant_patch; [done | | done].
      by eapply lifecycle_invariant_unpatch.
Qed.

(** X6.  The agreement of the registry and the flag also survives
    compilations: after any sequence of calls of [patch_torch_operators],
    [unpatch_torch_operators] and the shim, each of which returns, from the
    initial state of a framework none of whose existing slots is patched
    twice by one call, the flag is set if and only if the registry is not
    empty and every recorded slot holds a wrapper of the recorded original. *)
Theorem registry_consistent_after_entries E fw cs s :
  NoDup (existing_targets E fw) ->
  run_entries E cs (initial_state fw) = (Return tt, s) ->
  registry_consistent s.
Proof.
  intros Hnd Hrun. apply (lifecycle_invariant_consistent E fw).
  eapply lifecycle_invariant_run_entries; [done | | done].
  apply lifecycle_invariant_initial.
Qed.

(** X4.  Restoration holds across sessions and compilations: after any such
    sequence of calls that ends with the operators unpatched, every slot but
    [torch.jit.script] holds the very object the framework had there at the
    start, and a slot that did not exist still does not. *)
Theorem unpatched_state_is_original E fw cs s :
  NoDup (existing_targets E fw) ->
  run_entries E cs (initial_state fw) = (Return tt, s) ->
  _OPERATORS_ALREADY_WRAPPED s = false ->
  forall t, t <> jit_slot -> attrs s !! t = Builtin <$> fw !! t.
Proof.
  intros Hnd Hrun Ho t Ht.
  assert (lifecycle_invariant E fw s) as Hinv.
  { eapply lifecycle_invariant_run_entries; [done | | done].
    apply lifecycle_invariant_initial. }
  rewrite (inv_unpatched _ _ _ Hinv Ho t Ht). apply lookup_fmap.
Qed.

(** X9.  No operator is wrapped twice across sessions and compilations: after
    any such sequence of calls that ends with the operators patched, every
    existing slot of [patch_targets] holds a wrapper whose closure points to
    the framework's own object, never to a wrapper of an earlier session. *)
Theorem patched_state_wraps_originals E fw cs s :
  NoDup (existing_targets E fw) ->
  run_entries E cs (initial_state fw) = (Return tt, s) ->
  _OPERATORS_ALREADY_WRAPPED s = true ->
  forall t, t ∈ existing_targets E fw ->
    exists n k c,
      fw !! t = Some n /\ attrs s !! t = Some (Closure k) /\
      closures s !! k = Some c /\ closure_original c = Builtin n.
Proof.
  intros Hnd Hrun Ho t Ht.
  assert (lifecycle_invariant E fw s) as Hinv.
  { eapply lifecycle_invariant_run_entries; [done | | done].
    apply lifecycle_invariant_initial. }
  assert (exists n, fw !! t = Some n) as [n Hn].
  { unfold existing_targets in Ht.
    apply list_elem_of_In, filter_In in Ht as [_ Hp].
    unfold present in Hp. apply bool_decide_eq_true_1 in Hp as [o Ho'].
    rewrite lookup_fmap in Ho'. destruct (fw !! t) as [n|]; [by exists n | done]. }
  destruct (inv_wrapped _ _ _ Hinv Ho t (Builtin n) Ht) as (k & c & Hk & Hc & Hco).
  { by rewrite lookup_fmap, Hn. }
  by exists n, k, c.
Qed.

Lemma NoDup_existing_targets_plain :
  NoDup (existing_targets plain_env small_framework).
Proof. apply (bool_decide_unpack _). vm_compute. exact I. Qed.

Lemma registry_consistent_after_entries_witness :
  NoDup (existing_targets plain_env small_framework) /\
  run_entries plain_env compile_in_session (initial_state small_framework) =
    (Return tt, after_entries plain_env compile_in_session) /\
  registry_consistent (after_entries plain_env compile_in_session).
Proof.
  assert (run_entries plain_env compile_in_session (initial_state small_framework) =
          (Return tt, after_entries plain_env compile_in_session)) as Hrun
    by (vm_compute; reflexivity).
  split; [exact NoDup_existing_targets_plain |]. split; [exact Hrun |].
  exact (registry_consistent_after_entries plain_env small_framework
           compile_in_session _ NoDup_existing_targets_plain Hrun).
Defined.

Lemma unpatched_state_is_original_witness :
  run_entries plain_env compile_then_close (initial_state small_framework) =
    (Return tt, after_entries plain_env compile_then_close) /\
  _OPERATORS_ALREADY_WRAPPED (after_entries plain_env compile_then_close) = false /\
  attrs (after_entries plain_env compile_then_close) !! (F, "relu") =
    Some (Builtin 1) /\
  attrs (after_entries plain_env compile_then_close) !! (F, "gelu") = None.
Proof.
  assert (run_entries plain_env compile_then_close (initial_state small_framework) =
          (Return tt, after_entries plain_env compile_then_close)) as Hrun
    by (vm_compute; reflexivity).
  assert (_OPERATORS_ALREADY_WRAPPED (after_entries plain_env compile_then_close) =
          false) as Ho by (vm_compute; reflexivity).
  split; [exact Hrun |]. split; [exact Ho |].
  split.
  - rewrite (unpatched_state_is_original plain_env small_framework
               compile_then_close _ NoDup_existing_targets_plain Hrun Ho (F, "relu"));
      [vm_compute; reflexivity | discriminate].
  - rewrite (unpatched_state_is_original plain_env small_framework
               compile_then_close _ NoDup_existing_targets_plain Hrun Ho (F, "gelu"));
      [vm_compute; reflexivity | discriminate].
Defined.

Lemma patched_state_wraps_originals_witness :
  run_entries plain_env compile_in_session (initial_state small_framework) =
    (Return tt, after_entries plain_env compile_in_session) /\
  _OPERATORS_ALREADY_WRAPPED (after_entries plain_env compile_in_session) = true /\
  (F, "relu") ∈ existing_targets plain_env small_framework /\
  exists n k c,
    small_framework !! (F, "relu") = Some n /\
    attrs (after_entries plain_env compile_in_session) !! (F, "relu") =
      Some (Closure k) /\
    closures (after_entries plain_env compile_in_session) !! k = Some c /\
    closure_original c = Builtin n.
Proof.
  assert (run_entries plain_env compile_in_session (initial_state small_framework) =
          (Return tt, after_entries plain_env compile_in_session)) as Hrun
    by (vm_compute; reflexivity).
  assert (_OPERATORS_ALREADY_WRAPPED (after_entries plain_env compile_in_session) =
          true) as Ho by (vm_compute; reflexivity).
  assert ((F, "relu") ∈ existing_targets plain_env small_framework) as Hin.
  { apply list_elem_of_In. vm_compute. auto. }
  split; [exact Hrun |]. split; [exact Ho |]. split; [exact Hin |].
  exact (patched_state_wraps_originals plain_env small_framework
           compile_in_session _ NoDup_existing_targets_plain Hrun Ho (F, "relu") Hin).
Defined.

(** ** The registry only grows *)

Lemma existing_targets_filter E fw s :
  presence_invariant fw s ->
  List.filter (present (attrs s)) (patch_targets E) = existing_targets E fw.
Proof.
  intros Hinv. unfold existing_targets. apply filter_ext_in.
  intros t Ht%list_elem_of_In. apply (presence_slots _ _ Hinv).
  by eapply Forall_forall in Ht; [| apply patch_targets_not_jit_slot].
Qed.

Lemma presence_invariant_patch E fw s s' :
  presence_invariant fw s ->
  patch_torch_operators E s = (Return tt, s') ->
  presence_invariant fw s' /\
  _OPERATORS_ALREADY_WRAPPED s' = true /\
  length (ORIGINAL_OPERATORS s') =
    length (ORIGINAL_OPERATORS s) +
    (if _OPERATORS_ALREADY_WRAPPED s then 0 else 1) * length (existing_targets E fw).
Proof.
  intros Hinv H.
  destruct (patch_torch_operators_Return _ _ _ H) as [Hj' Ho'].
  destruct (_OPERATORS_ALREADY_WRAPPED s) eqn:Ho.
  { rewrite patch_torch_operators_noop in H;
      [| by apply (presence_jit _ _ Hinv) | done].
    injection H as <-. split; [done |]. split; [done |]. simpl. lia. }
  destruct (patch_torch_operators_session _ _ _ Ho H) as (new & Hp & _ & Hn).
  rewrite (existing_targets_filter E fw s Hinv) in Hn.
  split; [| split; [done |]].
  - split.
    + intros t Ht. rewrite (patched_present _ _ _ t Hp Ht).
      by apply (presence_slots _ _ Hinv).
    + rewrite (patched_registry _ _ _ Hp). intros r [Hr|Hr]%elem_of_app.
      * by apply (presence_records _ _ Hinv).
      * assert (ooi_target r ∈ existing_targets E fw) as Hex.
        { rewrite <- Hn. by apply list_elem_of_fmap_2. }
        split; [| by eapply existing_targets_not_jit_slot].
        unfold existing_targets in Hex.
        by apply list_elem_of_In, filter_In in Hex as [_ Hpr].
    + done.
  - rewrite (patched_registry _ _ _ Hp), length_app, <- Hn, length_map. lia.
Qed.

Lemma presence_invariant_unpatch E fw s s' :
  presence_invariant fw s ->
  unpatch_torch_operators E s = (Return tt, s') ->
  presence_invariant fw s' /\
  _OPERATORS_ALREADY_WRAPPED s' = false /\
  ORIGINAL_OPERATORS s' = ORIGINAL_OPERATORS s.
Proof.
  intros Hinv H.
  destruct (_OPERATORS_ALREADY_WRAPPED s) eqn:Ho.
  2:{ rewrite unpatch_torch_operators_noop in H by done. by injection H as <-. }
  apply unpatch_torch_operators_Return in H as (Ho' & Hj' & _ & Hr' & _ & Ha'); [| done].
  split; [| done]. split.
  - intros t Ht. unfold present at 1. rewrite Ha'.
    destruct (last_op t (ORIGINAL_OPERATORS s)) as [o|] eqn:Hl.
    + apply last_op_elem in Hl as (r & Hr & <- & _).
      destruct (presence_records _ _ Hinv r Hr) as [-> _].
      by apply bool_decide_eq_true_2.
    + by apply (presence_slots _ _ Hinv).
  - rewrite Hr'. apply Hinv.
  - by rewrite Ho'.
Qed.

Lemma registry_length_run_entries E fw cs s s' :
  presence_invariant fw s ->
  run_entries E cs s = (Return tt, s') ->
  length (ORIGINAL_OPERATORS s') =
    length (ORIGINAL_OPERATORS s) +
    sessions_opened (_OPERATORS_ALREADY_WRAPPED s) cs * length (existing_targets E fw).
Proof.
  unfold run_entries. revert s. induction cs as [|c cs IH]; intros s Hinv; simpl.
  - intros [= <-]. lia.
  - intros ([] & s1 & H1 & H2)%bind_inv_Return. destruct c as [| |args]; simpl in H1.
    + apply presence_invariant_patch with (fw := fw) in H1 as (Hinv1 & Ho1 & Hlen);
        [| done].
      rewrite (IH s1 Hinv1 H2), Hlen, Ho1. lia.
    + apply presence_invariant_unpatch with (fw := fw) in H1 as (Hinv1 & Ho1 & Hr);
        [| done].
      by rewrite (IH s1 Hinv1 H2), Hr, Ho1.
    + apply bind_inv_Return in H1 as (v & s2 & H1 & [= ->]).
      apply torch_jit_script_wrapper_Return in H1 as (orig & s0 & Hu & _ & _ & Hp).
      apply presence_invariant_unpatch with (fw := fw) in Hu as (Hinv0 & Ho0 & Hr);
        [| done].
      apply presence_invariant_patch with (fw := fw) in Hp as (Hinv1 & Ho1 & Hlen);
        [| done].
      rewrite (IH s1 Hinv1 H2), Hlen, Ho0, Ho1, Hr. lia.
Qed.

(** X3.  The registry is never cleared and grows with every session: after
    any sequence of calls of the three entry points, each of which returns,
    from the initial state of a framework, [ORIGINAL_OPERATORS] holds one
    record per existing slot of [patch_targets] for every time the operators
    were patched anew, each compilation through the shim counting as one. *)
Theorem registry_grows_with_sessions E fw cs s :
  run_entries E cs (initial_state fw) = (Return tt, s) ->
  length (ORIGINAL_OPERATORS s) =
    sessions_opened false cs * length (existing_targets E fw).
Proof.
  intros Hrun.
  rewrite (registry_length_run_entries E fw cs (initial_state fw) s); [done | | done].
  split; simpl; try done. by intros r ?%elem_of_nil.
Qed.

Lemma registry_grows_with_sessions_witness :
  run_entries plain_env compile_in_session (initial_state small_framework) =
    (Return tt, after_entries plain_env compile_in_session) /\
  length (existing_targets plain_env small_framework) = 4 /\
  length (ORIGINAL_OPERATORS (after_entries plain_env compile_in_session)) = 3 * 4.
Proof.
  assert (run_entries plain_env compile_in_session (initial_state small_framework) =
          (Return tt, after_entries plain_env compile_in_session)) as Hrun
    by (vm_compute; reflexivity).
  split; [exact Hrun |]. split; [vm_compute; reflexivity |].
  rewrite (registry_grows_with_sessions plain_env small_framework
             compile_in_session _ Hrun).
  vm_compute. reflexivity.
Defined.

(** * Further properties of trace forwarding *)

#[local] Instance store_grows_refl : Reflexive store_grows.
Proof. by intros w. Qed.

#[local] Instance store_grows_trans : Transitive store_grows.
Proof. intros w1 w2 w3 [? ?] [? ?]. split; [by etrans | congruence]. Qed.

Lemma keeps_for_fold {S A B} (R : S -> S -> Prop) `{!Reflexive R} `{!Transitive R}
    (l : list A) (body : B -> A -> M S B) :
  (forall b x, keeps R (body b x)) -> forall acc, keeps R (for_fold l body acc).
Proof.
  intros Hb. induction l as [|x l IH]; intros acc; simpl.
  - intros s r s' [= _ <-]. done.
  - apply keeps_bind; [done | apply Hb | intros b; apply IH].
Qed.

Ltac store_grows_done :=
  simpl; rewrite ?alter_last; split; [by apply prefix_app_r || done | done].

Lemma forward_meta_grows fargs in_idx result out_idx :
  keeps store_grows (forward_meta fargs in_idx result out_idx).
Proof.
  intros w r w'.
  unfold forward_meta, getitem, get_tensor_meta, deepcopy, get_shape, set_shape,
    from_torch_tensor, bind, get, modify, ret, raise. simpl.
  destruct (fargs !! in_idx) as [arg|]; [| by intros [= _ <-]].
  destruct arg as [| d sh m | | |]; try (by intros [= _ <-]).
  destruct (metas w !! m) as [c|]; simpl; [| by intros [= _ <-]].
  destruct (result !! out_idx) as [out|]; [| intros [= _ <-]; store_grows_done].
  destruct out; simpl; intros [= _ <-]; store_grows_done.
Qed.

Lemma getitem_state {A} (l : list A) i (w : World) r w' :
  getitem l i w = (r, w') -> w' = w.
Proof. unfold getitem. destruct (l !! i); by intros [= _ <-]. Qed.

Lemma after_call_grows flatten_args operator args kwargs w v r w' :
  run operator args kwargs = Return v ->
  ForwardTraceOnly_call flatten_args operator args kwargs w = (r, w') ->
  store_grows (executed_once operator args kwargs w) w'.
Proof.
  intros Hrun. destruct (is_sequence v) eqn:Hseq.
  - assert (exists was_tuple items, v = sequence was_tuple items)
      as (was_tuple & items & ->).
    { destruct v; try discriminate Hseq; [by exists false, items | by exists true, items]. }
    rewrite (call_on_sequence _ _ _ _ _ _ _ Hrun).
    apply keeps_bind; [apply _ | | by intros items' w0 r0 w0' [= _ <-]].
    case_decide; [| case_decide].
    + apply keeps_for_fold; [apply _ | apply _ |]. intros result out_idx.
      apply keeps_bind; [apply _ | | intros in_idx; apply forward_meta_grows].
      intros w0 r0 w0' ->%getitem_state. done.
    + by intros w0 r0 w0' [= _ <-].
    + apply keeps_for_fold; [apply _ | apply _ |]. intros result io.
      apply forward_meta_grows.
  - rewrite (call_on_single _ _ _ _ _ _ Hrun Hseq).
    case_decide; [by intros [= _ <-] |]. case_decide; [| by intros [= _ <-]].
    unfold getitem, get_tensor_meta, deepcopy, get_shape, set_shape,
      from_torch_tensor, bind, get, modify, ret, raise.
    destruct (indices_where _ _ !! 0) as [in_idx|]; [| by intros [= _ <-]].
    destruct (flatten_args args kwargs !! in_idx) as [arg|]; [| by intros [= _ <-]].
    destruct arg as [| d sh m | | |]; try (by intros [= _ <-]).
    simpl. destruct (metas w !! m) as [c|]; simpl; [| by intros [= _ <-]].
    destruct v; simpl; intros [= _ <-]; store_grows_done.
Qed.

(** X10.  Whatever the call does (the operator raises, the counts cannot be
    reconciled, an attribute is missing, or it returns), the operator has run
    exactly once, and every metadata object that existed is as it was: the
    policy only ever creates metadata objects.  And when the operator raises,
    the call raises the same exception and creates none. *)
Theorem forward_runs_once_and_keeps_metas flatten_args operator args kwargs w r w' :
  ForwardTraceOnly_call flatten_args operator args kwargs w = (r, w') ->
  executed w' =
    executed w ++ [{| exec_name := __name__ operator; exec_args := args;
                      exec_kwargs := kwargs |}] /\
  metas w `prefix_of` metas w' /\
  (forall e, run operator args kwargs = Raise e -> r = Raise e /\ metas w' = metas w).
Proof.
  intros H. destruct (run operator args kwargs) as [v|e] eqn:Hrun.
  - destruct (after_call_grows _ _ _ _ _ _ _ _ Hrun H) as [Hpre Hex]. simpl in *.
    split; [done |]. split; [done |]. by intros e.
  - revert H. unfold ForwardTraceOnly_call, call_operator, bind, modify, raise.
    simpl. rewrite Hrun. intros [= <- <-]. simpl.
    split; [done |]. split; [done |]. by intros e' [= <-].
Qed.

Lemma forward_runs_once_and_keeps_metas_witness :
  ForwardTraceOnly_call flatten_one_level
      (raising_operator "boom" (TypeError "bad argument")) one_traced [] two_metas =
    (Raise (TypeError "bad argument"),
     executed_once (raising_operator "boom" (TypeError "bad argument"))
       one_traced [] two_metas) /\
  length (executed (executed_once (raising_operator "boom" (TypeError "bad argument"))
                      one_traced [] two_metas)) = 1 /\
  metas two_metas `prefix_of`
    metas (executed_once (raising_operator "boom" (TypeError "bad argument"))
             one_traced [] two_metas).
Proof.
  assert (ForwardTraceOnly_call flatten_one_level
            (raising_operator "boom" (TypeError "bad argument")) one_traced []
            two_metas =
          (Raise (TypeError "bad argument"),
           executed_once (raising_operator "boom" (TypeError "bad argument"))
             one_traced [] two_metas)) as H by reflexivity.
  destruct (forward_runs_once_and_keeps_metas _ _ _ _ _ _ _ H) as (Hex & Hpre & _).
  split; [exact H |]. split; [rewrite Hex; reflexivity | exact Hpre].
Defined.

(** X11.  With no traced tensor among the flattened arguments, a list or a
    tuple is returned as it is only if no element of it is a tensor; if any
    element is a tensor the call raises the mismatch error (a single result,
    by contrast, is returned as it is).  Either way the operator has run and
    no metadata was created. *)
Theorem forward_untraced_sequence flatten_args operator args kwargs w was_tuple items :
  run operator args kwargs = Return (sequence was_tuple items) ->
  indices_where isinstance_TracedTensor (flatten_args args kwargs) = [] ->
  ForwardTraceOnly_call flatten_args operator args kwargs w =
    (if decide (indices_where isinstance_Tensor items = [])
     then Return (sequence was_tuple items)
     else Raise (RuntimeError (mismatch_message operator)),
     executed_once operator args kwargs w).
Proof.
  intros Hrun Hins. rewrite (call_on_sequence _ _ _ _ _ _ _ Hrun), Hins.
  rewrite decide_False by done.
  destruct (indices_where isinstance_Tensor items) as [|j outs] eqn:Houts.
  - rewrite decide_False by (intros Hc; by apply Hc). by rewrite decide_True by done.
  - rewrite decide_True by done. by rewrite decide_False by done.
Qed.

Lemma forward_untraced_sequence_witness :
  ForwardTraceOnly_call flatten_one_level list_operator [plain_c] [] two_metas =
    (Raise (RuntimeError
       "Unable to forward trace through operator chunk - input and output tensor count mismatch!"),
     executed_once list_operator [plain_c] [] two_metas) /\
  ForwardTraceOnly_call flatten_one_level numbers_operator [plain_c] [] two_metas =
    (Return (VTuple [VOther 2; VOther 3]),
     executed_once numbers_operator [plain_c] [] two_metas).
Proof.
  split.
  - exact (forward_untraced_sequence flatten_one_level list_operator [plain_c] []
             two_metas false [out_x] eq_refl eq_refl).
  - exact (forward_untraced_sequence flatten_one_level numbers_operator [plain_c] []
             two_metas true [VOther 2; VOther 3] eq_refl eq_refl).
Defined.

(** When the call returns on a list or a tuple, the pairs the loop has
    forwarded cover the tensors of the result, one pair each. *)
Lemma sequence_call_forwarded flatten_args operator args kwargs w was_tuple items
    v' w' :
  metas_of_args_exist (flatten_args args kwargs) w ->
  run operator args kwargs = Return (sequence was_tuple items) ->
  ForwardTraceOnly_call flatten_args operator args kwargs w = (Return v', w') ->
  exists ios items',
    map snd ios = indices_where isinstance_Tensor items /\
    v' = sequence was_tuple items' /\
    forwarded (flatten_args args kwargs) (executed_once operator args kwargs w)
      items ios items' w'.
Proof.
  intros Hex Hrun.
  set (fargs := flatten_args args kwargs) in *.
  set (ins := indices_where isinstance_TracedTensor fargs).
  set (outs := indices_where isinstance_Tensor items).
  assert (forall i, i ∈ ins -> exists d sh l m,
            fargs !! i = Some (VTracedTensor d sh l) /\ metas w !! l = Some m) as Hins.
  { intros i (a & Ha & Hta)%elem_of_indices_where.
    destruct a as [| d sh l | | |]; try discriminate Hta.
    destruct (Hex i d sh l Ha) as [m Hm]. by exists d, sh, l, m. }
  assert (forall j, j ∈ outs -> exists x, items !! j = Some x /\ isinstance_Tensor x = true)
    as Houts by (by intros j ?%elem_of_indices_where).
  rewrite (call_on_sequence _ _ _ _ _ _ _ Hrun). fold fargs ins outs.
  destruct (decide (length ins = 1)) as [Hone|Hnone].
  - destruct ins as [|i [|? ?]] eqn:Hi; try discriminate Hone.
    destruct (Hins i) as (d & sh & l & m & Ha & Hm); [apply list_elem_of_here |].
    assert (map snd (map (pair i) outs) = outs) as Hsnd.
    { rewrite map_map. simpl. apply map_id. }
    destruct (forward_loop_ok fargs (map (pair i) outs) items
                (executed_once operator args kwargs w))
      as (items' & w1 & Hloop & Hfwd).
    { apply Forall_forall. intros io (j & -> & Hj)%list_elem_of_fmap.
      destruct (Houts j Hj) as (x & Hx & Htx). by exists d, sh, l, m, x. }
    { rewrite Hsnd. apply NoDup_indices_where. }
    rewrite for_fold_map in Hloop.
    erewrite bind_Return;
      [| erewrite for_fold_ext; [exact Hloop | by intros b x s0]].
    intros [= <- <-]. by exists (map (pair i) outs), items'.
  - destruct (decide (length ins ≠ length outs)) as [Hdiff|Hsame]; [done |].
    assert (length ins = length outs) as Hlen by lia.
    assert (map snd (zip ins outs) = outs) as Hsnd by (apply snd_zip; lia).
    destruct (forward_loop_ok fargs (zip ins outs) items
                (executed_once operator args kwargs w))
      as (items' & w1 & Hloop & Hfwd).
    { apply Forall_lookup. intros pos [i j] Hio.
      apply lookup_zip_with_Some in Hio as (i' & j' & [= <- <-] & Hi & Hj).
      destruct (Hins i) as (d & sh & l & m & Ha & Hm); [by eapply list_elem_of_lookup_2 |].
      destruct (Houts j) as (x & Hx & Htx); [by eapply list_elem_of_lookup_2 |].
      by exists d, sh, l, m, x. }
    { rewrite Hsnd. apply NoDup_indices_where. }
    erewrite bind_Return; [| exact Hloop].
    intros [= <- <-]. by exists (zip ins outs), items'.
Qed.

(** X12.  When every traced argument refers to metadata that exists and the
    call returns on a list or a tuple, what it returns is a sequence of the
    same kind and length in which no plain tensor is left (every tensor is a
    traced tensor), and exactly one metadata object was created per tensor of
    the operator's result. *)
Theorem forward_leaves_no_plain_tensor flatten_args operator args kwargs w
    was_tuple items v' w' :
  metas_of_args_exist (flatten_args args kwargs) w ->
  run operator args kwargs = Return (sequence was_tuple items) ->
  ForwardTraceOnly_call flatten_args operator args kwargs w = (Return v', w') ->
  exists items',
    v' = sequence was_tuple items' /\
    length items' = length items /\
    (forall j x', items' !! j = Some x' -> isinstance_Tensor x' = true ->
       isinstance_TracedTensor x' = true) /\
    length (metas w') =
      length (metas w) + length (indices_where isinstance_Tensor items).
Proof.
  intros Hex Hrun Hcall.
  destruct (sequence_call_forwarded _ _ _ _ _ _ _ _ _ Hex Hrun Hcall)
    as (ios & items' & Hsnd & -> & Hlen & _ & _ & Hmlen & Hun & Hpos).
  exists items'. split; [done |]. split; [done |]. split.
  - intros j x' Hj Hx'.
    destruct (decide (j ∈ map snd ios)) as [Hin|Hout].
    + apply list_elem_of_fmap in Hin as (io & -> & [pos Hp]%list_elem_of_lookup).
      destruct (Hpos pos io Hp) as (d & sh & l & m & x & _ & _ & _ & Hres & _).
      rewrite Hres in Hj. by injection Hj as <-.
    + rewrite (Hun j Hout) in Hj. exfalso. apply Hout. rewrite Hsnd.
      apply elem_of_indices_where. eauto.
  - simpl in Hmlen. by rewrite Hmlen, <- Hsnd, length_map.
Qed.

Lemma forward_leaves_no_plain_tensor_witness :
  run pair_operator one_traced keyword_b = Return (sequence false two_outputs) /\
  exists items',
    (ForwardTraceOnly_call flatten_one_level pair_operator one_traced keyword_b
       two_metas).1 = Return (sequence false items') /\
    length items' = 3 /\
    length (metas (ForwardTraceOnly_call flatten_one_level pair_operator one_traced
                     keyword_b two_metas).2) = 2 + 2.
Proof.
  split; [reflexivity |].
  destruct (forward_leaves_no_plain_tensor flatten_one_level pair_operator
              one_traced keyword_b two_metas false two_outputs
              (VList [traced_with out_x 2; VOther 1; traced_with out_y 3])
              (ForwardTraceOnly_call flatten_one_level pair_operator one_traced
                 keyword_b two_metas).2)
    as (items' & Hv & Hlen & _ & Hm).
  - intros [|[|[|i]]] d sh l Hi; vm_compute in Hi; try discriminate Hi;
      injection Hi as <- <- <-; vm_compute; eauto.
  - reflexivity.
  - vm_compute. reflexivity.
  - exists items'. split; [| split; [exact Hlen | exact Hm]].
    rewrite <- Hv. vm_compute. reflexivity.
Defined.

(** * The patch of the extension build *)

Lemma map_int_fails py_int pieces :
  Exists (fun piece => exists e, py_int piece = inr e) pieces ->
  exists e, map_int py_int pieces = inr e.
Proof.
  induction 1 as [piece pieces [e He]|piece pieces _ [e IH]]; simpl.
  - rewrite He. by exists e.
  - destruct (py_int piece) as [n|e']; [| by exists e'].
    rewrite IH. by exists e.
Qed.

(** What [<] against [[1, 8, 0]] says of a version of three numbers or more
    whose third number is not negative. *)
Lemma list_lt_1_8_0 major minor patch rest :
  (0 <= patch)%Z ->
  list_lt (major :: minor :: patch :: rest) [1; 8; 0]%Z =
    bool_decide (major < 1 \/ (major = 1 /\ minor < 8))%Z.
Proof.
  intros Hpatch. simpl.
  destruct (Z.eqb_spec major 1) as [->|Hmajor].
  - destruct (Z.eqb_spec minor 8) as [->|Hminor].
    + destruct (Z.eqb_spec patch 0) as [->|Hp].
      * destruct rest; symmetry; apply bool_decide_eq_false_2; lia.
      * destruct (Z.ltb_spec patch 0); [lia |].
        symmetry; apply bool_decide_eq_false_2; lia.
    + destruct (Z.ltb_spec minor 8).
      * symmetry; apply bool_decide_eq_true_2; lia.
      * symmetry; apply bool_decide_eq_false_2; lia.
  - destruct (Z.ltb_spec major 1).
    + symmetry; apply bool_decide_eq_true_2; lia.
    + symmetry; apply bool_decide_eq_false_2; lia.
Qed.

Lemma supported_old_versions_no_plus v :
  v ∈ supported_old_versions -> plus_sign ∉ String.list_ascii_of_string v.
Proof.
  unfold supported_old_versions.
  intros Hv. repeat (apply elem_of_cons in Hv as [->|Hv]);
    [| | | by apply elem_of_nil in Hv];
    apply (bool_decide_unpack _); vm_compute; exact I.
Qed.

(** X13.  The wrapper that sorts the architecture flags is installed for
    three version strings only: if the call changes [_get_cuda_arch_flags],
    then [torch.__version__] is literally one of 1.5.1, 1.7.0 and 1.7.1 (so
    it carries no local suffix such as [+cu110]), the attribute is now
    [sort_arch_flags] of what it was, [_write_ninja_file] is untouched and
    no warning was logged. *)
Theorem arch_flags_patch_only_for_listed_versions B b :
  _get_cuda_arch_flags (patch_extension_build_function B b).2 <>
    _get_cuda_arch_flags b ->
  torch_version B ∈ supported_old_versions /\
  (plus_sign ∉ String.list_ascii_of_string (torch_version B)) /\
  patch_extension_build_function B b =
    (Return tt,
     {| _get_cuda_arch_flags := sort_arch_flags (_get_cuda_arch_flags b);
        _write_ninja_file := _write_ninja_file b;
        logger_warnings := logger_warnings b |}).
Proof.
  unfold patch_extension_build_function, logger_warning, modify, ret.
  destruct (map_int _ _) as [ns|e]; simpl; [| done].
  destruct (list_lt ns [1; 8; 0]%Z); simpl.
  - case_bool_decide as Hv; simpl; [| done]. intros _.
    split; [done |]. split; [by apply supported_old_versions_no_plus | done].
  - destruct (negb _); simpl; done.
Qed.

Lemma arch_flags_patch_only_for_listed_versions_witness :
  _get_cuda_arch_flags
    (patch_extension_build_function (build_env "1.7.1" "linux") unpatched_build).2 <>
    _get_cuda_arch_flags unpatched_build /\
  torch_version (build_env "1.7.1" "linux") ∈ supported_old_versions /\
  _get_cuda_arch_flags
    (patch_extension_build_function (build_env "1.7.1+cu110" "linux")
       unpatched_build).2 = get_cuda_arch_flags_original.
Proof.
  assert (_get_cuda_arch_flags
            (patch_extension_build_function (build_env "1.7.1" "linux")
               unpatched_build).2 <>
          _get_cuda_arch_flags unpatched_build) as H
    by (vm_compute; discriminate).
  split; [exact H |].
  split; [exact (proj1 (arch_flags_patch_only_for_listed_versions _ _ H)) |].
  vm_compute. reflexivity.
Defined.

(** X14.  A version that cannot be parsed patches nothing: when [int] fails on
    any piece between the dots of the part of [torch.__version__] before the
    first [+], the call returns, both attributes are what they were, and
    exactly one warning, which carries the message of the failure, was
    logged. *)
Theorem unparsable_version_patches_nothing B b :
  Exists (fun piece => exists e, py_int B piece = inr e)
    (str_split full_stop (hd EmptyString (str_split plus_sign (torch_version B)))) ->
  exists e,
    patch_extension_build_function B b =
      (Return tt,
       {| _get_cuda_arch_flags := _get_cuda_arch_flags b;
          _write_ninja_file := _write_ninja_file b;
          logger_warnings := logger_warnings b ++ [cannot_parse_warning e] |}).
Proof.
  intros [e He]%map_int_fails. exists e.
  unfold patch_extension_build_function. by rewrite He.
Qed.

Lemma unparsable_version_patches_nothing_witness :
  Exists (fun piece => exists e, py_int (build_env "1.8.0a0+git" "linux") piece = inr e)
    (str_split full_stop
       (hd EmptyString (str_split plus_sign
                          (torch_version (build_env "1.8.0a0+git" "linux"))))) /\
  exists e,
    patch_extension_build_function (build_env "1.8.0a0+git" "linux") unpatched_build =
      (Return tt,
       {| _get_cuda_arch_flags := get_cuda_arch_flags_original;
          _write_ninja_file := write_ninja_file_original;
          logger_warnings := [cannot_parse_warning e] |}).
Proof.
  assert (Exists (fun piece => exists e,
                    py_int (build_env "1.8.0a0+git" "linux") piece = inr e)
            (str_split full_stop
               (hd EmptyString (str_split plus_sign
                  (torch_version (build_env "1.8.0a0+git" "linux")))))) as H.
  { vm_compute. do 2 apply Exists_cons_tl. apply Exists_cons_hd. eexists. reflexivity. }
  split; [exact H |].
  exact (unparsable_version_patches_nothing _ unpatched_build H).
Defined.

(** X15.  From 1.8 on, the other wrapper: when the part of the version
    before the first [+] parses to three numbers or more, the third not
    negative, and the first two are at least (1, 8), the call logs nothing
    and leaves [_get_cuda_arch_flags] alone; [_write_ninja_file] becomes
    [remove_nvcc_dep_build] of what it was, except on [win32], where nothing
    at all changes. *)
Theorem recent_version_patches_ninja B b major minor patch rest :
  map_int (py_int B)
    (str_split full_stop (hd EmptyString (str_split plus_sign (torch_version B)))) =
    inl (major :: minor :: patch :: rest) ->
  (0 <= patch)%Z ->
  (1 < major \/ (major = 1 /\ 8 <= minor))%Z ->
  patch_extension_build_function B b =
    (Return tt,
     if String.eqb (sys_platform B) "win32" then b
     else {| _get_cuda_arch_flags := _get_cuda_arch_flags b;
             _write_ninja_file := remove_nvcc_dep_build (_write_ninja_file b);
             logger_warnings := logger_warnings b |}).
Proof.
  intros Hparse Hpatch Hver. unfold patch_extension_build_function.
  rewrite Hparse, (list_lt_1_8_0 _ _ _ _ Hpatch).
  rewrite bool_decide_eq_false_2 by lia.
  by destruct (String.eqb _ _).
Qed.

Lemma recent_version_patches_ninja_witness :
  map_int (py_int (build_env "1.9.1+cu111" "linux"))
    (str_split full_stop
       (hd EmptyString (str_split plus_sign
                          (torch_version (build_env "1.9.1+cu111" "linux"))))) =
    inl [1; 9; 1]%Z /\
  patch_extension_build_function (build_env "1.9.1+cu111" "linux") unpatched_build =
    (Return tt,
     {| _get_cuda_arch_flags := get_cuda_arch_flags_original;
        _write_ninja_file := remove_nvcc_dep_build write_ninja_file_original;
        logger_warnings := [] |}).
Proof.
  assert (map_int (py_int (build_env "1.9.1+cu111" "linux"))
            (str_split full_stop
               (hd EmptyString (str_split plus_sign
                  (torch_version (build_env "1.9.1+cu111" "linux"))))) =
          inl [1; 9; 1]%Z) as H by (vm_compute; reflexivity).
  split; [exact H |].
  apply (recent_version_patches_ninja _ unpatched_build 1 9 1 [] H); lia.
Defined.

(** * A batch that meets a slot rejecting assignment *)

(** X16.  A batch is not atomic and stops at the first slot that rejects
    assignment: when the names before it can be assigned and it exists, the
    batch raises [AttributeError] for it; the names before it that exist are
    wrapped, every slot of a name outside those is what it was (the names
    after it are not reached), and yet a record for the rejecting slot has
    been appended to the registry. *)
Theorem batch_stops_at_rejecting_slot E ns ps pre n post s :
  underlying_function_names ps = pre ++ n :: post ->
  (forall m, m ∈ pre -> read_only E ns m = false) ->
  read_only E ns n = true ->
  is_Some (attrs s !! (ns, n)) ->
  exists s',
    patch_namespace_by_patchspec E ns ps s = (Raise (AttributeError n), s') /\
    (forall m, m ∉ pre -> attrs s' !! (ns, m) = attrs s !! (ns, m)) /\
    (forall m, m ∈ pre -> is_Some (attrs s !! (ns, m)) ->
       exists k, attrs s' !! (ns, m) = Some (Closure k)) /\
    exists o, attrs s' !! (ns, n) = Some o /\
              {| ooi_name := n; ooi_namespace := ns; ooi_op := o |}
                ∈ ORIGINAL_OPERATORS s'.
Proof.
  intros Hnames Hpre Hn [o0 Ho0].
  destruct (patch_names_total E ns (custom_trace_fn ps) pre s Hpre)
    as (s1 & Hs1 & _ & _ & _ & Hother & Hwrapped).
  assert (exists o, attrs s1 !! (ns, n) = Some o) as [o Ho].
  { destruct (decide (n ∈ pre)) as [Hin|Hout].
    - specialize (Hwrapped n Hin). rewrite Ho0 in Hwrapped.
      destruct Hwrapped as (k & o' & Hk & _). by exists (Closure k).
    - exists o0. rewrite Hother; [done |].
      intros (m & [= <-] & Hm)%list_elem_of_fmap. done. }
  destruct (patch_namespace_opname_read_only E ns
              {| poi_name := n; poi_custom_trace_fn := custom_trace_fn ps |} s1 o Ho Hn)
    as (s' & Hs' & Hat & Hr & _).
  exists s'. split.
  { unfold patch_namespace_by_patchspec. rewrite Hnames, for_each_app.
    rewrite (bind_Return _ _ _ _ _ Hs1). simpl. by rewrite (bind_Raise _ _ _ _ _ Hs'). }
  rewrite Hat. split; [| split].
  - intros m Hm. apply Hother. intros (m' & [= <-] & Hm')%list_elem_of_fmap. done.
  - intros m Hm [om Hom]. specialize (Hwrapped m Hm). rewrite Hom in Hwrapped.
    destruct Hwrapped as (k & o' & Hk & _). by exists k.
  - exists o. split; [done |]. rewrite Hr. apply elem_of_app. right.
    apply list_elem_of_here.
Qed.

Lemma batch_stops_at_rejecting_slot_witness :
  exists s',
    patch_namespace_by_patchspec frozen_env torch torch_batch small_start =
      (Raise (AttributeError "relu"), s') /\
    attrs s' !! (torch, "relu") = Some (Builtin 2) /\
    {| ooi_name := "relu"; ooi_namespace := torch; ooi_op := Builtin 2 |}
      ∈ ORIGINAL_OPERATORS s'.
Proof.
  destruct (batch_stops_at_rejecting_slot frozen_env torch torch_batch
              ["gelu"] "relu" ["__call__"] small_start)
    as (s' & Hs' & Hother & _ & o & Ho & Hrec).
  - reflexivity.
  - intros m Hm. apply list_elem_of_singleton in Hm as ->. reflexivity.
  - reflexivity.
  - vm_compute. eauto.
  - exists s'. split; [exact Hs' |].
    assert (attrs s' !! (torch, "relu") = Some (Builtin 2)) as Ha.
    { rewrite Hother; [vm_compute; reflexivity |].
      intros Hm. apply list_elem_of_singleton in Hm. discriminate Hm. }
    split; [exact Ha |].
    rewrite Ha in Ho. injection Ho as <-. exact Hrec.
Defined.
